(** * ga-change-primary-domain: the domain changer of [lib/domainchanger.go]

    A shallow embedding of the Go package [lib] (type [DomainChanger]) and of
    the entry point that drives it, followed by the properties of the
    rename pass: address rewriting, the alias sub-pass, the user and group
    passes, the confirmation gates.

    Go strings are byte strings: they are modelled by [string] (a list of
    8-bit [ascii]).  The remote directory (the Admin SDK service behind
    [d.srv]) is modelled by a store of principals on which the calls issued
    by the program act; every mutating call is also appended to a log. *)

From Stdlib Require Import String Ascii List Bool Arith Lia.
Import ListNotations.
Open Scope string_scope.
Open Scope list_scope.

(** ** Outcomes of Go code *)

(** A run-time panic of the Go runtime. *)
Inductive panic : Type :=
| IndexOutOfRange   (* index out of range [i] with length n *)
| NilDereference.   (* invalid memory address or nil pointer dereference *)

(** How a Go function call ends: it returns, the process exits through
    [log.Fatal*] (message logged, exit status 1), or it panics. *)
Inductive outcome (A : Type) : Type :=
| Returns (a : A)
| Exits (msg : string)
| Panics (p : panic).

Arguments Returns {A} a.
Arguments Exits {A} msg.
Arguments Panics {A} p.

Definition returned {A} (o : outcome A) : bool :=
  match o with Returns _ => true | _ => false end.

(** ** Package [strings] *)

(** [strings.Contains(s, "@")]. *)
Fixpoint hasAt (s : string) : bool :=
  match s with
  | EmptyString => false
  | String c rest => if Ascii.eqb c "@" then true else hasAt rest
  end.

(** [strings.Split(s, "@")]: the substrings between the separators; a string
    without separator gives the one-element slice holding it. *)
Fixpoint Split (s : string) : list string :=
  match s with
  | EmptyString => [EmptyString]
  | String c rest =>
      if Ascii.eqb c "@" then EmptyString :: Split rest
      else match Split rest with
           | hd :: tl => String c hd :: tl
           | [] => [String c EmptyString]
           end
  end.

(** [strings.Join(elems, "@")]. *)
Fixpoint Join (elems : list string) : string :=
  match elems with
  | [] => EmptyString
  | e :: rest =>
      match rest with
      | [] => e
      | _ :: _ => (e ++ "@" ++ Join rest)%string
      end
  end.

(** [unicode.ToLower] on one byte: the letters A-Z are moved to a-z.  Bytes
    outside ASCII are left as they are (no rune outside ASCII has a
    one-byte lower case y or n). *)
Definition lowerByte (c : ascii) : ascii :=
  let n := nat_of_ascii c in
  if Nat.leb 65 n && Nat.leb n 90 then ascii_of_nat (n + 32) else c.

(** [strings.ToLower]. *)
Fixpoint ToLower (s : string) : string :=
  match s with
  | EmptyString => EmptyString
  | String c rest => String (lowerByte c) (ToLower rest)
  end.

(** ** Slices *)

(** The assignment [l[i] = v]; [None] is the index-out-of-range panic. *)
Fixpoint setIndex {A} (l : list A) (i : nat) (v : A) : option (list A) :=
  match l, i with
  | [], _ => None
  | _ :: tl, O => Some (v :: tl)
  | hd :: tl, S j =>
      match setIndex tl j v with
      | Some tl' => Some (hd :: tl')
      | None => None
      end
  end.

(** ** Data of the directory API *)

(** [admin.Customer]. *)
Record Customer : Type := mkCustomer {
  CustomerId : string;
  CustomerDomain : string
}.

(** [admin.User] and [admin.Group], reduced to the fields the program reads
    or writes.  For a user [Email] is the field [PrimaryEmail] and [Name] is
    [Name.FullName]; for a group they are [Email] and [Name]. *)
Record Principal : Type := mkPrincipal {
  Id : string;
  Name : string;
  Email : string;
  Aliases : list string
}.

Definition setEmail (e : string) (p : Principal) : Principal :=
  mkPrincipal (Id p) (Name p) e (Aliases p).

Definition addAlias (a : string) (p : Principal) : Principal :=
  mkPrincipal (Id p) (Name p) (Email p) (Aliases p ++ [a]).

(** The two collections of the directory. *)
Inductive kind : Type := KUser | KGroup.

(** The remote directory: one account, its users and its groups in listing
    order. *)
Record Directory : Type := mkDirectory {
  customer : Customer;
  users : list Principal;
  groups : list Principal
}.

Definition coll (k : kind) (dir : Directory) : list Principal :=
  match k with KUser => users dir | KGroup => groups dir end.

Definition withColl (k : kind) (l : list Principal) (dir : Directory) : Directory :=
  match k with
  | KUser => mkDirectory (customer dir) l (groups dir)
  | KGroup => mkDirectory (customer dir) (users dir) l
  end.

(** A mutating call sent to the directory. *)
Inductive Call : Type :=
| CustomersUpdate (custKey : string) (domain : string)
| Update (k : kind) (key : string) (email : string)
| AliasesInsert (k : kind) (key : string) (alias : string).

(** The calls that fail (transport or API error), fixed for a run. *)
Record Faults : Type := mkFaults {
  failCustomersGet : bool;
  failCustomersUpdate : bool;
  failList : kind -> bool;
  failUpdate : kind -> string -> bool;
  failAliasesInsert : kind -> string -> string -> bool
}.

Definition noFaults : Faults :=
  mkFaults false false (fun _ => false) (fun _ _ => false) (fun _ _ _ => false).

(** What the program acts on: the directory and the log of mutating calls
    in the order they were issued. *)
Record World : Type := mkWorld {
  dir : Directory;
  calls : list Call
}.

(** ** Stateful computations that may exit or panic *)

Definition M (A : Type) : Type := World -> World * outcome A.

Definition ret {A} (a : A) : M A := fun w => (w, Returns a).

Definition bind {A B} (m : M A) (f : A -> M B) : M B :=
  fun w =>
    match m w with
    | (w', Returns a) => f a w'
    | (w', Exits msg) => (w', Exits msg)
    | (w', Panics p) => (w', Panics p)
    end.

Definition fatal {A} (msg : string) : M A := fun w => (w, Exits msg).
Definition throw {A} (p : panic) : M A := fun w => (w, Panics p).

(** The value of a pure call, or its panic. *)
Definition eval {A} (o : outcome A) : M A := fun w => (w, o).

Notation "x <- m ;; f" := (bind m (fun x => f))
  (at level 61, m at next level, right associativity).
Notation "m ;;; f" := (bind m (fun _ => f))
  (at level 61, right associativity).

(** [for _, x := range l { body }]. *)
Fixpoint forEach {A} (body : A -> M unit) (l : list A) : M unit :=
  match l with
  | [] => ret tt
  | x :: rest => body x ;;; forEach body rest
  end.

(** ** The directory service *)

Definition lookupId (key : string) (l : list Principal) : option Principal :=
  find (fun p => String.eqb (Id p) key) l.

Definition modifyId (key : string) (f : Principal -> Principal)
    (l : list Principal) : list Principal :=
  map (fun p => if String.eqb (Id p) key then f p else p) l.

(** A page of a listing. *)
Record ListResponse : Type := mkListResponse {
  Items : list Principal;
  NextPageToken : string   (* empty when the listing is complete *)
}.

(** Page size of [Groups.List] when [MaxResults] is not set. *)
Definition groupsDefaultMaxResults : nat := 200.

Section Service.

Variable flt : Faults.

(** [Customers.Get(key).Do()]. *)
Definition CustomersGet (key : string) : M (option Customer) :=
  fun w =>
    if failCustomersGet flt then (w, Returns None)
    else (w, Returns (Some (customer (dir w)))).

(** [Customers.Update(key, patch).Do()]. *)
Definition CustomersUpdateDo (key : string) (patch : Customer) : M (option Customer) :=
  fun w =>
    let w1 := mkWorld (dir w) (calls w ++ [CustomersUpdate key (CustomerDomain patch)]) in
    if failCustomersUpdate flt then (w1, Returns None)
    else
      let c := mkCustomer (CustomerId (customer (dir w))) (CustomerDomain patch) in
      (mkWorld (mkDirectory c (users (dir w)) (groups (dir w))) (calls w1),
       Returns (Some c)).

(** [Users.List().Customer(scope).MaxResults(n).OrderBy("email").Do()]
    and [Groups.List().Customer(scope).Do()]: the first page of the
    collection.  The model holds one account, which both scopes name. *)
Definition ListDo (k : kind) (scope : string) (maxResults : nat)
    : M (option ListResponse) :=
  fun w =>
    if failList flt k then (w, Returns None)
    else
      let all := coll k (dir w) in
      (w, Returns (Some (mkListResponse (firstn maxResults all)
                           (if Nat.leb (length all) maxResults then "" else "next")))).

(** [Users.Update(key, p).Do()] and [Groups.Update(key, p).Do()]: the
    stored principal takes the address of [p]; the stored principal is
    returned, or nil with an error. *)
Definition UpdateDo (k : kind) (key : string) (p : Principal) : M (option Principal) :=
  fun w =>
    let w1 := mkWorld (dir w) (calls w ++ [Update k key (Email p)]) in
    if failUpdate flt k key then (w1, Returns None)
    else
      match lookupId key (coll k (dir w)) with
      | None => (w1, Returns None)
      | Some _ =>
          let l := modifyId key (setEmail (Email p)) (coll k (dir w)) in
          (mkWorld (withColl k l (dir w)) (calls w1), Returns (lookupId key l))
      end.

(** [asrv.Insert(key, &admin.Alias{Alias: alias, ...}).Do()]: the alias is
    appended to the stored principal's aliases; [false] is an error. *)
Definition AliasesInsertDo (k : kind) (key : string) (alias : string) : M bool :=
  fun w =>
    let w1 := mkWorld (dir w) (calls w ++ [AliasesInsert k key alias]) in
    if failAliasesInsert flt k key alias then (w1, Returns false)
    else
      match lookupId key (coll k (dir w)) with
      | None => (w1, Returns false)
      | Some _ =>
          let l := modifyId key (addAlias alias) (coll k (dir w)) in
          (mkWorld (withColl k l (dir w)) (calls w1), Returns true)
      end.

End Service.

(** ** Type [DomainChanger] *)

Record DomainChanger : Type := mkDomainChanger {
  cust : Customer;
  oldDomain : string;
  newDomain : string
}.

(** [checkNewDomain]. *)
Definition checkNewDomain (d : DomainChanger) : bool :=
  if String.eqb (CustomerDomain (cust d)) (newDomain d) then false else true.

(** [changeEmailDomain]: split on the separator, overwrite index 1, join. *)
Definition changeEmailDomain (email domain : string) : outcome string :=
  let addrParts := Split email in
  match setIndex addrParts 1 domain with
  | Some addrParts' => Returns (Join addrParts')
  | None => Panics IndexOutOfRange
  end.

Definition emailNewDomain (d : DomainChanger) (email : string) : outcome string :=
  changeEmailDomain email (newDomain d).

Definition emailOldDomain (d : DomainChanger) (email : string) : outcome string :=
  changeEmailDomain email (oldDomain d).

(** [hasAlias]. *)
Fixpoint hasAlias (alias : string) (aliases : list string) : bool :=
  match aliases with
  | [] => false
  | a :: rest => if String.eqb alias a then true else hasAlias alias rest
  end.

Section Passes.

Variable d : DomainChanger.
Variable flt : Faults.

(** [ChangePrimaryDomain]; [code] is what [fmt.Scan(&code)] reads, [None]
    when reading fails. *)
Definition ChangePrimaryDomain (code : option string) : M unit :=
  if negb (checkNewDomain d) then
    match code with
    | None => fatal "Unable to read response"
    | Some c =>
        if String.eqb (ToLower c) "n" then fatal "Done." else ret tt
    end
  else
    match code with
    | None => fatal "Unable to read response"
    | Some c =>
        if negb (String.eqb (ToLower c) "y") then fatal "Abort!"
        else
          r <- CustomersUpdateDo flt (CustomerId (cust d))
                 (mkCustomer "" (newDomain d)) ;;
          match r with
          | None => fatal "Unable to update customer primary domain."
          | Some _ => ret tt
          end
    end.

Section AliasPass.

(** [UpdateUserAliases] and [UpdateGroupAliases] have the same body,
    over users and over groups. *)
Variable k : kind.

(** Body of the loop over [p.Aliases]. *)
Definition aliasBody (p : Principal) (oldAddress : string) (a : string) : M unit :=
  if negb (String.eqb a oldAddress) then
    newA <- eval (emailNewDomain d a) ;;
    if negb (hasAlias newA (Aliases p)) then
      _ <- AliasesInsertDo flt k (Id p) newA ;;
      ret tt
    else ret tt
  else ret tt.

Definition UpdateAliases (p : Principal) : M unit :=
  oldAddress <- eval (emailOldDomain d (Email p)) ;;
  forEach (aliasBody p oldAddress) (Aliases p).

End AliasPass.

Definition UpdateUserAliases (u : Principal) : M unit := UpdateAliases KUser u.
Definition UpdateGroupAliases (g : Principal) : M unit := UpdateAliases KGroup g.

(** Body of the loop of [UpdateUsers].  The result of the update call is
    assigned to [u] before the error is looked at; on an error [u] is nil
    and building the message of [log.Fatalf] reads [u.Name]. *)
Definition userBody (u : Principal) : M unit :=
  emailUpdate <- eval (emailNewDomain d (Email u)) ;;
  u' <- (if String.eqb emailUpdate (Email u) then ret u
         else
           r <- UpdateDo flt KUser (Id u) (setEmail emailUpdate u) ;;
           match r with
           | None => throw NilDereference
           | Some u2 => ret u2
           end) ;;
  UpdateUserAliases u'.

(** [UpdateUsers]. *)
Definition UpdateUsers : M unit :=
  ru <- ListDo flt KUser "my_customer" 50 ;;
  match ru with
  | None => fatal "Unable to retrieve users in domain."
  | Some ru =>
      if Nat.eqb (length (Items ru)) 0 then ret tt
      else forEach userBody (Items ru)
  end.

(** Body of the loop of [UpdateGroups].  The result of the update call is
    bound to a new [g] inside the else branch; on an error that [g] is nil
    and the message reads [g.Name]; the alias pass gets the loop's [g]. *)
Definition groupBody (g : Principal) : M unit :=
  emailUpdate <- eval (emailNewDomain d (Email g)) ;;
  g' <- (if String.eqb emailUpdate (Email g) then ret g
         else
           let g1 := setEmail emailUpdate g in
           r <- UpdateDo flt KGroup (Id g) g1 ;;
           match r with
           | None => throw NilDereference
           | Some _ => ret g1
           end) ;;
  UpdateGroupAliases g'.

(** [UpdateGroups]. *)
Definition UpdateGroups : M unit :=
  gu <- ListDo flt KGroup (CustomerId (cust d)) groupsDefaultMaxResults ;;
  match gu with
  | None => fatal "Unable to retrieve groups in domain."
  | Some gu =>
      if Nat.eqb (length (Items gu)) 0 then ret tt
      else forEach groupBody (Items gu)
  end.

(** The passes over the principals, as [main] runs them. *)
Definition UpdateAll : M unit := UpdateUsers ;;; UpdateGroups.

End Passes.

(** [NewDomainChanger]: the customer is read once and kept. *)
Definition NewDomainChanger (flt : Faults) (oldD newD : string) : M DomainChanger :=
  c <- CustomersGet flt "my_customer" ;;
  match c with
  | None => fatal "Unable to retrieve customer data."
  | Some c => ret (mkDomainChanger c oldD newD)
  end.

(** [main] of the command, after the credentials are set up. *)
Definition main (flt : Faults) (oldD newD : string) (code : option string) : M unit :=
  if String.eqb oldD "" || String.eqb newD "" then fatal "Try again."
  else
    dc <- NewDomainChanger flt oldD newD ;;
    ChangePrimaryDomain dc flt code ;;;
    UpdateUsers dc flt ;;;
    UpdateGroups dc flt.


(** ** The two passes, by collection *)

Definition passBody (d : DomainChanger) (flt : Faults) (k : kind) : Principal -> M unit :=
  match k with KUser => userBody d flt | KGroup => groupBody d flt end.

Definition UpdatePass (d : DomainChanger) (flt : Faults) (k : kind) : M unit :=
  match k with KUser => UpdateUsers d flt | KGroup => UpdateGroups d flt end.

(** Size of the page the pass asks for. *)
Definition pageSize (k : kind) : nat :=
  match k with KUser => 50 | KGroup => groupsDefaultMaxResults end.

(** ** Predicates on principals and on the call log *)

(** Every address of the principal has a separator. *)
Definition wfPrincipal (p : Principal) : bool :=
  hasAt (Email p) && forallb hasAt (Aliases p).

Definition wfStore (l : list Principal) : bool := forallb wfPrincipal l.

(** [addr] reaches the principal: it is its primary address or an alias. *)
Definition reachable (addr : string) (p : Principal) : bool :=
  String.eqb addr (Email p) || existsb (String.eqb addr) (Aliases p).


Definition isUpdateOf (k : kind) (key : string) (c : Call) : bool :=
  match c with
  | Update k' key' _ =>
      match k, k' with
      | KUser, KUser | KGroup, KGroup => String.eqb key key'
      | _, _ => false
      end
  | _ => false
  end.

Definition isInsertOf (k : kind) (key : string) (c : Call) : bool :=
  match c with
  | AliasesInsert k' key' _ =>
      match k, k' with
      | KUser, KUser | KGroup, KGroup => String.eqb key key'
      | _, _ => false
      end
  | _ => false
  end.

(** The stored principal after the aliases [ins] were inserted, in order. *)
Definition addAliases (ins : list string) (p : Principal) : Principal :=
  mkPrincipal (Id p) (Name p) (Email p) (Aliases p ++ ins).

(** ** Specifications of computations *)

(** Started in a world satisfying [P], the computation ends in a world
    satisfying [Q] when it returns and [E] when it exits or panics. *)
Definition hoare {A} (P : World -> Prop) (m : M A)
    (Q : A -> World -> Prop) (E : World -> Prop) : Prop :=
  forall w, P w ->
    match m w with
    | (w', Returns a) => Q a w'
    | (w', _) => E w'
    end.

(** Started in a world satisfying [P], the computation returns, in a world
    satisfying [Q]. *)
Definition total {A} (P : World -> Prop) (m : M A) (Q : A -> World -> Prop) : Prop :=
  forall w, P w -> exists a w', m w = (w', Returns a) /\ Q a w'.

(** What a pass keeps true about a principal [u] whose address is current,
    from a start with the log [cs0] and the identifiers [ids0]: no update
    call for [u] is added, the stored address of [u] stays, the identifiers
    stay, and when [u] has no alias no insert call for [u] is added. *)
Definition leftAlone (k : kind) (u : Principal) (cs0 : list Call)
    (ids0 : list string) (w : World) : Prop :=
  (forall c, In c (calls w) -> isUpdateOf k (Id u) c = true -> In c cs0) /\
  (forall q, In q (coll k (dir w)) -> Id q = Id u -> Email q = Email u) /\
  map Id (coll k (dir w)) = ids0 /\
  (Aliases u = [] ->
   forall c, In c (calls w) -> isInsertOf k (Id u) c = true -> In c cs0).

(** Every stored address of the collection has a separator and the
    collection holds the identifiers [ids0]. *)
Definition wfWorld (k : kind) (ids0 : list string) (w : World) : Prop :=
  wfStore (coll k (dir w)) = true /\ map Id (coll k (dir w)) = ids0.

(** ** Example accounts *)

(** A changer from [old.com] to [new.com]. *)
Definition exampleChanger : DomainChanger :=
  mkDomainChanger (mkCustomer "C01" "old.com") "old.com" "new.com".

Definition exampleCustomer : Customer := mkCustomer "C01" "old.com".

(** A user without aliases. *)
Definition bob : Principal := mkPrincipal "2" "Bob" "bob@old.com" [].

(** A user whose alias is on the old domain. *)
Definition alice : Principal :=
  mkPrincipal "1" "Alice" "alice@old.com" ["al@old.com"].

(** A user already on the new domain, without aliases. *)
Definition carol : Principal := mkPrincipal "3" "Carol" "carol@new.com" [].

(** A user with the same alias on two other domains. *)
Definition dave : Principal :=
  mkPrincipal "4" "Dave" "dave@old.com" ["sales@old.com"; "sales@shop.example"].

(** A user on the new domain with an alias that is the old address in
    another letter case. *)
Definition erin : Principal :=
  mkPrincipal "5" "Erin" "erin@new.com" ["Erin@old.com"].

(** A group whose alias is already mirrored. *)
Definition team : Principal :=
  mkPrincipal "g1" "Team" "team@old.com" ["team-alias@old.com"; "team-alias@new.com"].

Definition directoryOf (us gs : list Principal) : Directory :=
  mkDirectory exampleCustomer us gs.

(** The update of the principal [key] fails, nothing else does. *)
Definition failUpdateOf (key : string) : Faults :=
  mkFaults false false (fun _ => false) (fun _ key' => String.eqb key' key)
    (fun _ _ _ => false).

(** Every alias insert fails, nothing else does. *)
Definition failInserts : Faults :=
  mkFaults false false (fun _ => false) (fun _ _ => false) (fun _ _ _ => true).

(** Principals [0 .. n-1] on domain [dom], in ascending order of address:
    number [i] has the local part [u] followed by [i] letters [i]. *)
Fixpoint unary (n : nat) : string :=
  match n with
  | O => EmptyString
  | S m => String "i" (unary m)
  end.

Definition numbered (dom : string) (i : nat) : Principal :=
  mkPrincipal (String "#" (unary i)) "" (String "u" (unary i) ++ "@" ++ dom)%string [].

Definition manyPrincipals (dom : string) (n : nat) : list Principal :=
  map (numbered dom) (seq 0 n).

(** An account with 51 users and 201 groups. *)
Definition bigDirectory : Directory :=
  directoryOf (manyPrincipals "old.com" 51) (manyPrincipals "old.com" 201).

(** ** Predicates for the frame of a pass *)

Definition otherKind (k : kind) : kind :=
  match k with KUser => KGroup | KGroup => KUser end.

Definition sameKind (k k' : kind) : bool :=
  match k, k' with
  | KUser, KUser | KGroup, KGroup => true
  | _, _ => false
  end.

(** A call of the pass over collection [k]: an update or an alias insert on
    that collection, with an address that has a separator. *)
Definition passCall (k : kind) (c : Call) : bool :=
  match c with
  | CustomersUpdate _ _ => false
  | Update k' _ email => sameKind k k' && hasAt email
  | AliasesInsert k' _ alias => sameKind k k' && hasAt alias
  end.

(** [q] is [q0] with, at most, another address and further aliases at the
    end. *)
Definition keeps (q0 q : Principal) : Prop :=
  Id q = Id q0 /\ Name q = Name q0 /\
  exists ins, Aliases q = Aliases q0 ++ ins.

(** [m] is [u] renamed to the new domain, with further aliases at most. *)
Definition renamed (d : DomainChanger) (u m : Principal) : Prop :=
  emailNewDomain d (Email u) = Returns (Email m) /\ keeps u m.

(** An insert call of the alias pass of [p]: the new-domain copy of a listed
    alias that is not the old address, the copy not being listed. *)
Definition mirrorCall (d : DomainChanger) (k : kind) (p : Principal)
    (oldAddress : string) (c : Call) : Prop :=
  exists a newA,
    c = AliasesInsert k (Id p) newA /\
    In a (Aliases p) /\ a <> oldAddress /\
    emailNewDomain d a = Returns newA /\
    hasAlias newA (Aliases p) = false.

(** ** The older entry point *)

(** Body of the loop over the users in the older [main]: the address is
    rewritten in line and the user is updated, whatever the address was; on
    an error the message of [log.Fatalf] reads [u2.Name] of the nil
    result. *)
Definition legacyUserBody (flt : Faults) (newDomain : string) (u : Principal) : M unit :=
  let addrParts := Split (Email u) in
  match setIndex addrParts 1 newDomain with
  | None => throw IndexOutOfRange
  | Some addrParts' =>
      let emailUpdate := Join addrParts' in
      r <- UpdateDo flt KUser (Id u) (setEmail emailUpdate u) ;;
      match r with
      | None => throw NilDereference
      | Some _ => ret tt
      end
  end.

(** The older [main], after the credentials are set up; [args] is
    [os.Args[1:]] and [code] is what [fmt.Scan(&code)] reads. *)
Definition legacyMain (flt : Faults) (args : list string) (code : option string) : M unit :=
  match args with
  | [] => fatal "Pass new domain name as the only parameter."
  | newDomain :: _ =>
      c <- CustomersGet flt "my_customer" ;;
      match c with
      | None => fatal "Unable to retrieve customer data."
      | Some cust =>
          match code with
          | None => fatal "Unable to read authorization code"
          | Some code =>
              if negb (String.eqb (ToLower code) "y") then fatal "Abort!"
              else
                r <- CustomersUpdateDo flt (CustomerId cust)
                       (mkCustomer "" newDomain) ;;
                match r with
                | None => fatal "Unable to update customer primary domain."
                | Some _ =>
                    ru <- ListDo flt KUser "my_customer" 50 ;;
                    match ru with
                    | None => fatal "Unable to retrieve users in domain."
                    | Some ru =>
                        if Nat.eqb (length (Items ru)) 0 then ret tt
                        else forEach (legacyUserBody flt newDomain) (Items ru)
                    end
                end
          end
      end
  end.

(** The update call of the older loop for user [u]. *)
Definition legacyCall (newDomain : string) (u : Principal) (c : Call) : Prop :=
  exists e, changeEmailDomain (Email u) newDomain = Returns e /\
            c = Update KUser (Id u) e.

(** A call a pass over collection [k] issues for the listed principal [x]:
    the update to the rewritten address, when that differs from the listed
    one, or an alias insert. *)
Definition pageCall (d : DomainChanger) (k : kind) (x : Principal) (c : Call) : Prop :=
  (exists e, c = Update k (Id x) e /\
             emailNewDomain d (Email x) = Returns e /\ e <> Email x) \/
  (exists a, c = AliasesInsert k (Id x) a).
(** * Properties *)

(** ** Splitting and joining addresses *)

Definition noAt (s : string) : Prop := hasAt s = false.

Lemma Split_not_nil (s : string) : Split s <> [].
Proof.
  induction s as [|c s IH]; simpl; [discriminate|].
  destruct (Ascii.eqb c "@"); [discriminate|].
  destruct (Split s); discriminate.
Qed.

Lemma Split_noAt (s : string) : noAt s -> Split s = [s].
Proof.
  unfold noAt. induction s as [|c s IH]; simpl; [reflexivity|].
  destruct (Ascii.eqb c "@"); [discriminate|].
  intros H. now rewrite (IH H).
Qed.

Lemma Split_app_at (l r : string) :
  noAt l -> Split (l ++ String "@" r)%string = l :: Split r.
Proof.
  unfold noAt. induction l as [|c l IH]; simpl; [reflexivity|].
  destruct (Ascii.eqb c "@"); [discriminate|].
  intros H. now rewrite (IH H).
Qed.

Lemma Split_parts_noAt (s : string) : Forall noAt (Split s).
Proof.
  induction s as [|c s IH]; simpl.
  - repeat constructor.
  - destruct (Ascii.eqb c "@") eqn:E.
    + constructor; [reflexivity | exact IH].
    + destruct (Split s) as [|hd tl].
      * constructor; [|constructor]. unfold noAt. simpl. now rewrite E.
      * inversion IH; subst. constructor; [|assumption].
        unfold noAt in *. simpl. now rewrite E.
Qed.

Lemma Split_Join (l : list string) :
  l <> [] -> Forall noAt l -> Split (Join l) = l.
Proof.
  induction l as [|e rest IH]; [congruence|].
  intros _ H. inversion H as [|? ? He Hrest]; subst.
  destruct rest as [|e2 rest'].
  - simpl. now apply Split_noAt.
  - change (Join (e :: e2 :: rest'))
      with (e ++ String "@" (Join (e2 :: rest')))%string.
    rewrite Split_app_at by assumption.
    f_equal. apply IH; [discriminate | assumption].
Qed.

Lemma hasAt_app_at (l r : string) : hasAt (l ++ String "@" r)%string = true.
Proof.
  induction l as [|c l IH]; simpl; [reflexivity|].
  now destruct (Ascii.eqb c "@").
Qed.

Lemma hasAt_Split (s : string) :
  hasAt s = true -> exists a b rest, Split s = a :: b :: rest.
Proof.
  induction s as [|c s IH]; simpl; [discriminate|].
  destruct (Ascii.eqb c "@").
  - intros _. destruct (Split s) as [|b rest] eqn:E.
    + now destruct (Split_not_nil s).
    + now exists EmptyString, b, rest.
  - intros H. destruct (IH H) as (a & b & rest & E). rewrite E.
    now exists (String c a), b, rest.
Qed.

Lemma setIndex_1_inv {A} (l l' : list A) (v : A) :
  setIndex l 1 v = Some l' ->
  exists a b rest, l = a :: b :: rest /\ l' = a :: v :: rest.
Proof.
  destruct l as [|a [|b rest]]; simpl; try discriminate.
  intros H. injection H as <-. now exists a, b, rest.
Qed.

Lemma changeEmailDomain_inv (email domain n : string) :
  changeEmailDomain email domain = Returns n ->
  exists a b rest, Split email = a :: b :: rest /\ n = Join (a :: domain :: rest).
Proof.
  unfold changeEmailDomain.
  destruct (setIndex (Split email) 1 domain) as [l'|] eqn:E; [|discriminate].
  intros H. injection H as <-.
  destruct (setIndex_1_inv _ _ _ E) as (a & b & rest & -> & ->).
  now exists a, b, rest.
Qed.

Lemma changeEmailDomain_not_exit (email domain msg : string) :
  changeEmailDomain email domain <> Exits msg.
Proof.
  unfold changeEmailDomain.
  now destruct (setIndex (Split email) 1 domain).
Qed.

Lemma changeEmailDomain_hasAt (email domain : string) :
  hasAt email = true ->
  exists n, changeEmailDomain email domain = Returns n /\ hasAt n = true.
Proof.
  intros H. destruct (hasAt_Split _ H) as (a & b & rest & E).
  unfold changeEmailDomain. rewrite E. simpl.
  eexists; split; [reflexivity|].
  destruct rest; apply hasAt_app_at.
Qed.

Lemma changeEmailDomain_result_hasAt (email domain n : string) :
  changeEmailDomain email domain = Returns n -> hasAt n = true.
Proof.
  intros H. destruct (changeEmailDomain_inv _ _ _ H) as (a & b & rest & _ & ->).
  destruct rest; apply hasAt_app_at.
Qed.

(** Rewriting to a domain a second time changes nothing. *)
Lemma changeEmailDomain_idem (email domain n : string) :
  noAt domain ->
  changeEmailDomain email domain = Returns n ->
  changeEmailDomain n domain = Returns n.
Proof.
  intros Hd H. destruct (changeEmailDomain_inv _ _ _ H) as (a & b & rest & E & ->).
  pose proof (Split_parts_noAt email) as Hp. rewrite E in Hp.
  inversion Hp as [|? ? Ha Hp']; subst. inversion Hp' as [|? ? Hb Hr]; subst.
  unfold changeEmailDomain.
  rewrite Split_Join; [reflexivity | discriminate |].
  constructor; [assumption|]. constructor; assumption.
Qed.

(** ** [hasAlias] *)

Lemma hasAlias_In (alias : string) (aliases : list string) :
  hasAlias alias aliases = true <-> In alias aliases.
Proof.
  induction aliases as [|a rest IH]; simpl.
  - split; [discriminate | tauto].
  - destruct (String.eqb alias a) eqn:E.
    + apply String.eqb_eq in E. subst. tauto.
    + apply String.eqb_neq in E. rewrite IH. split; [tauto|].
      intros [H|H]; [congruence | assumption].
Qed.


(** ** Running computations *)

Lemma bind_Returns {A B} (m : M A) (f : A -> M B) (w w' : World) (b : B) :
  bind m f w = (w', Returns b) ->
  exists a w1, m w = (w1, Returns a) /\ f a w1 = (w', Returns b).
Proof.
  unfold bind. destruct (m w) as [w1 [a|msg|p]]; try discriminate.
  intros H. now exists a, w1.
Qed.

Lemma bind_step {A B} (m : M A) (f : A -> M B) (w w1 : World) (a : A) :
  m w = (w1, Returns a) -> bind m f w = f a w1.
Proof. unfold bind. now intros ->. Qed.

Lemma forEach_cons_Returns {A} (body : A -> M unit) (x : A) (l : list A)
    (w w' : World) :
  forEach body (x :: l) w = (w', Returns tt) ->
  exists w1, body x w = (w1, Returns tt) /\ forEach body l w1 = (w', Returns tt).
Proof.
  simpl. intros H. apply bind_Returns in H as ([] & w1 & H1 & H2). now exists w1.
Qed.

Lemma forEach_app {A} (body : A -> M unit) (l1 l2 : list A) (w w1 : World) :
  forEach body l1 w = (w1, Returns tt) ->
  forEach body (l1 ++ l2) w = forEach body l2 w1.
Proof.
  revert w. induction l1 as [|x l1 IH]; simpl; intros w H.
  - unfold ret in H. now injection H as ->.
  - apply bind_Returns in H as ([] & w2 & H1 & H2).
    rewrite (bind_step _ _ _ _ _ H1). now apply IH.
Qed.

(** ** The store *)

Lemma coll_withColl (k : kind) (l : list Principal) (dr : Directory) :
  coll k (withColl k l dr) = l.
Proof. now destruct k. Qed.

Lemma withColl_withColl (k : kind) (l l' : list Principal) (dr : Directory) :
  withColl k l (withColl k l' dr) = withColl k l dr.
Proof. now destruct k. Qed.

Lemma withColl_coll (k : kind) (dr : Directory) : withColl k (coll k dr) dr = dr.
Proof. now destruct k, dr. Qed.

Lemma coll_withColl_other (k k' : kind) (l : list Principal) (dr : Directory) :
  k <> k' -> coll k' (withColl k l dr) = coll k' dr.
Proof. destruct k, k'; simpl; congruence. Qed.

Lemma customer_withColl (k : kind) (l : list Principal) (dr : Directory) :
  customer (withColl k l dr) = customer dr.
Proof. now destruct k. Qed.

Lemma modifyId_notin (key : string) (f : Principal -> Principal) (l : list Principal) :
  ~ In key (map Id l) -> modifyId key f l = l.
Proof.
  induction l as [|p l IH]; simpl; [reflexivity|].
  intros H. destruct (String.eqb (Id p) key) eqn:E.
  - apply String.eqb_eq in E. tauto.
  - f_equal. apply IH. tauto.
Qed.

Lemma modifyId_mid (f : Principal -> Principal) (pre post : list Principal)
    (q : Principal) :
  NoDup (map Id (pre ++ q :: post)) ->
  modifyId (Id q) f (pre ++ q :: post) = pre ++ f q :: post.
Proof.
  intros H. rewrite map_app in H. simpl in H.
  pose proof (NoDup_remove_2 _ _ _ H) as Hn.
  unfold modifyId. rewrite map_app. simpl. rewrite String.eqb_refl.
  fold (modifyId (Id q) f pre). fold (modifyId (Id q) f post).
  rewrite !modifyId_notin; [reflexivity | |];
    intros Hin; apply Hn; apply in_or_app; tauto.
Qed.

Lemma lookupId_mid (pre post : list Principal) (q : Principal) :
  NoDup (map Id (pre ++ q :: post)) ->
  lookupId (Id q) (pre ++ q :: post) = Some q.
Proof.
  intros H. rewrite map_app in H. simpl in H.
  pose proof (NoDup_remove_2 _ _ _ H) as Hn.
  assert (Hpre : ~ In (Id q) (map Id pre)) by (intros Hin; apply Hn, in_or_app; tauto).
  clear H Hn. unfold lookupId.
  induction pre as [|p pre IH]; simpl.
  - now rewrite String.eqb_refl.
  - simpl in Hpre. destruct (String.eqb (Id p) (Id q)) eqn:E.
    + apply String.eqb_eq in E. tauto.
    + apply IH. tauto.
Qed.



(** ** A settled principal is left alone *)

Section Settled.

Variable d : DomainChanger.
Variable flt : Faults.
Variable k : kind.



End Settled.



(** ** What a pass without faults leaves in the store *)

Lemma addAliases_nil (q : Principal) : addAliases [] q = q.
Proof. destruct q. unfold addAliases. simpl. now rewrite app_nil_r. Qed.


Section FirstRun.

Variable d : DomainChanger.
Variable k : kind.
Hypothesis newDomain_noAt : noAt (newDomain d).





End FirstRun.

(** ** The passes as loops over the first page *)

Lemma UpdatePass_eq (d : DomainChanger) (flt : Faults) (k : kind) (w : World) :
  failList flt k = false ->
  UpdatePass d flt k w =
    forEach (passBody d flt k) (firstn (pageSize k) (coll k (dir w))) w.
Proof.
  intros Hf.
  destruct k; unfold UpdatePass, UpdateUsers, UpdateGroups, bind, ListDo, pageSize;
    rewrite Hf; cbv beta iota; unfold Items;
    match goal with
    | |- context [firstn ?n ?l] => destruct (firstn n l)
    end; reflexivity.
Qed.

Lemma UpdatePass_list_fails (d : DomainChanger) (flt : Faults) (k : kind) (w : World) :
  failList flt k = true ->
  exists msg, UpdatePass d flt k w = (w, Exits msg).
Proof.
  intros Hf.
  destruct k; unfold UpdatePass, UpdateUsers, UpdateGroups, bind, ListDo;
    rewrite Hf; eexists; reflexivity.
Qed.

Lemma In_firstn {A} (n : nat) (l : list A) (x : A) :
  In x (firstn n l) -> In x l.
Proof.
  intros H. rewrite <- (firstn_skipn n l). apply in_or_app. now left.
Qed.






(** ** Rules for [hoare] and [total] *)

Section Rules.

Context {A B : Type}.

Lemma hoare_ret (P : World -> Prop) (a : A) (Q : A -> World -> Prop)
    (E : World -> Prop) :
  (forall w, P w -> Q a w) -> hoare P (ret a) Q E.
Proof. intros H w Hw. simpl. auto. Qed.

Lemma hoare_eval (P : World -> Prop) (o : outcome A) (Q : A -> World -> Prop)
    (E : World -> Prop) :
  (forall w a, P w -> o = Returns a -> Q a w) ->
  (forall w, P w -> E w) ->
  hoare P (eval o) Q E.
Proof.
  intros HQ HE w Hw. unfold eval. destruct o; eauto.
Qed.

Lemma hoare_bind (P : World -> Prop) (m : M A) (R : A -> World -> Prop)
    (f : A -> M B) (Q : B -> World -> Prop) (E : World -> Prop) :
  hoare P m R E ->
  (forall a, hoare (R a) (f a) Q E) ->
  hoare P (bind m f) Q E.
Proof.
  intros Hm Hf w Hw. unfold bind. specialize (Hm w Hw).
  destruct (m w) as [w1 [a|msg|p]]; [|assumption|assumption].
  exact (Hf a w1 Hm).
Qed.

Lemma hoare_conseq (P P' : World -> Prop) (m : M A)
    (Q Q' : A -> World -> Prop) (E E' : World -> Prop) :
  hoare P m Q E ->
  (forall w, P' w -> P w) ->
  (forall a w, Q a w -> Q' a w) ->
  (forall w, E w -> E' w) ->
  hoare P' m Q' E'.
Proof.
  intros H HP HQ HE w Hw. specialize (H w (HP w Hw)).
  destruct (m w) as [w1 [a|msg|p]]; auto.
Qed.

Lemma total_ret (P : World -> Prop) (a : A) (Q : A -> World -> Prop) :
  (forall w, P w -> Q a w) -> total P (ret a) Q.
Proof. intros H w Hw. exists a, w. split; [reflexivity | auto]. Qed.

Lemma total_bind (P : World -> Prop) (m : M A) (R : A -> World -> Prop)
    (f : A -> M B) (Q : B -> World -> Prop) :
  total P m R ->
  (forall a, total (R a) (f a) Q) ->
  total P (bind m f) Q.
Proof.
  intros Hm Hf w Hw. destruct (Hm w Hw) as (a & w1 & E1 & H1).
  destruct (Hf a w1 H1) as (b & w2 & E2 & H2).
  exists b, w2. split; [|assumption].
  now rewrite (bind_step _ _ _ _ _ E1).
Qed.

End Rules.

Lemma hoare_forEach {A} (I : World -> Prop) (body : A -> M unit) (l : list A) :
  (forall x, In x l -> hoare I (body x) (fun _ => I) I) ->
  hoare I (forEach body l) (fun _ => I) I.
Proof.
  induction l as [|x l IH]; intros H.
  - intros w Hw. exact Hw.
  - simpl. apply hoare_bind with (R := fun _ => I).
    + apply H. now left.
    + intros _. apply IH. intros y Hy. apply H. now right.
Qed.

Lemma total_forEach {A} (I : World -> Prop) (body : A -> M unit) (l : list A) :
  (forall x, In x l -> total I (body x) (fun _ => I)) ->
  total I (forEach body l) (fun _ => I).
Proof.
  induction l as [|x l IH]; intros H.
  - apply total_ret. auto.
  - simpl. apply total_bind with (R := fun _ => I).
    + apply H. now left.
    + intros _. apply IH. intros y Hy. apply H. now right.
Qed.

Lemma hoare_run {A} (P : World -> Prop) (m : M A) (Q : A -> World -> Prop)
    (E : World -> Prop) (w w' : World) (o : outcome A) :
  hoare P m Q E -> P w -> m w = (w', o) ->
  match o with Returns a => Q a w' | _ => E w' end.
Proof. intros H Hw Hm. specialize (H w Hw). now rewrite Hm in H. Qed.

(** ** Effect of one call on the store and on the log *)

Lemma lookupId_Some (key : string) (l : list Principal) (q : Principal) :
  lookupId key l = Some q -> In q l /\ Id q = key.
Proof.
  unfold lookupId. intros H. apply find_some in H as (Hin & E).
  apply String.eqb_eq in E. now split.
Qed.

Lemma lookupId_found (key : string) (l : list Principal) :
  In key (map Id l) -> exists q, lookupId key l = Some q.
Proof.
  unfold lookupId. induction l as [|p l IH]; simpl; [intros []|].
  destruct (String.eqb (Id p) key) eqn:E; [now exists p|].
  apply String.eqb_neq in E. intros [H|H]; [contradiction | auto].
Qed.

Lemma modifyId_In (key : string) (f : Principal -> Principal)
    (l : list Principal) (q : Principal) :
  In q (modifyId key f l) ->
  exists q0, In q0 l /\ ((Id q0 = key /\ q = f q0) \/ (Id q0 <> key /\ q = q0)).
Proof.
  unfold modifyId. intros H. apply in_map_iff in H as (q0 & <- & Hin).
  exists q0. split; [assumption|].
  destruct (String.eqb (Id q0) key) eqn:E.
  - apply String.eqb_eq in E. now left.
  - apply String.eqb_neq in E. now right.
Qed.

Lemma modifyId_ids (key : string) (f : Principal -> Principal) (l : list Principal) :
  (forall q, Id (f q) = Id q) -> map Id (modifyId key f l) = map Id l.
Proof.
  intros Hf. unfold modifyId. rewrite map_map. apply map_ext.
  intros q. now destruct (String.eqb (Id q) key).
Qed.

Lemma modifyId_wfStore (key : string) (f : Principal -> Principal)
    (l : list Principal) :
  (forall q, wfPrincipal q = true -> wfPrincipal (f q) = true) ->
  wfStore l = true -> wfStore (modifyId key f l) = true.
Proof.
  intros Hf. unfold wfStore, modifyId. rewrite !forallb_forall.
  intros H q Hq. apply in_map_iff in Hq as (q0 & <- & Hin).
  destruct (String.eqb (Id q0) key); auto.
Qed.

Lemma UpdateDo_effect (flt : Faults) (k : kind) (key : string) (p : Principal)
    (w : World) :
  exists l' r,
    UpdateDo flt k key p w =
      (mkWorld (withColl k l' (dir w)) (calls w ++ [Update k key (Email p)]),
       Returns r) /\
    ((l' = coll k (dir w) /\ r = None) \/
     (failUpdate flt k key = false /\
      l' = modifyId key (setEmail (Email p)) (coll k (dir w)) /\
      exists q, r = Some q /\ lookupId key l' = Some q)).
Proof.
  unfold UpdateDo. destruct (failUpdate flt k key) eqn:Ef.
  - exists (coll k (dir w)), None. rewrite withColl_coll. auto.
  - destruct (lookupId key (coll k (dir w))) as [q0|] eqn:El.
    + exists (modifyId key (setEmail (Email p)) (coll k (dir w))).
      destruct (lookupId_found key (modifyId key (setEmail (Email p)) (coll k (dir w))))
        as (q & Hq).
      { rewrite modifyId_ids by reflexivity.
        apply lookupId_Some in El as (Hin & <-). now apply in_map. }
      exists (Some q). simpl. rewrite Hq. split; [reflexivity|].
      right. split; [reflexivity|]. split; [reflexivity|]. now exists q.
    + exists (coll k (dir w)), None. rewrite withColl_coll. auto.
Qed.

Lemma UpdateDo_succeeds (flt : Faults) (k : kind) (key : string) (p : Principal)
    (w : World) :
  failUpdate flt k key = false ->
  In key (map Id (coll k (dir w))) ->
  exists q,
    UpdateDo flt k key p w =
      (mkWorld (withColl k (modifyId key (setEmail (Email p)) (coll k (dir w))) (dir w))
               (calls w ++ [Update k key (Email p)]),
       Returns (Some q)) /\
    lookupId key (modifyId key (setEmail (Email p)) (coll k (dir w))) = Some q.
Proof.
  intros Ef Hin. unfold UpdateDo. rewrite Ef.
  destruct (lookupId_found key _ Hin) as (q0 & ->).
  destruct (lookupId_found key (modifyId key (setEmail (Email p)) (coll k (dir w))))
    as (q & Hq).
  { now rewrite modifyId_ids by reflexivity. }
  exists q. simpl. now rewrite Hq.
Qed.

Lemma AliasesInsertDo_effect (flt : Faults) (k : kind) (key alias : string)
    (w : World) :
  exists l' b,
    AliasesInsertDo flt k key alias w =
      (mkWorld (withColl k l' (dir w)) (calls w ++ [AliasesInsert k key alias]),
       Returns b) /\
    (l' = coll k (dir w) \/ l' = modifyId key (addAlias alias) (coll k (dir w))).
Proof.
  unfold AliasesInsertDo. destruct (failAliasesInsert flt k key alias).
  - exists (coll k (dir w)), false. rewrite withColl_coll. auto.
  - destruct (lookupId key (coll k (dir w))).
    + exists (modifyId key (addAlias alias) (coll k (dir w))), true. auto.
    + exists (coll k (dir w)), false. rewrite withColl_coll. auto.
Qed.

Lemma isUpdateOf_Update (k : kind) (key key' email : string) :
  isUpdateOf k key (Update k key' email) = String.eqb key key'.
Proof. now destruct k. Qed.

Lemma isInsertOf_AliasesInsert (k : kind) (key key' alias : string) :
  isInsertOf k key (AliasesInsert k key' alias) = String.eqb key key'.
Proof. now destruct k. Qed.

Lemma NoDup_Id_eq (l : list Principal) (x y : Principal) :
  NoDup (map Id l) -> In x l -> In y l -> Id x = Id y -> x = y.
Proof.
  induction l as [|p l IH]; simpl; [intros _ []|].
  intros Hn Hx Hy E. inversion Hn as [|? ? Hnotin Hn']; subst.
  destruct Hx as [->|Hx], Hy as [->|Hy]; auto.
  - exfalso. apply Hnotin. rewrite E. now apply in_map.
  - exfalso. apply Hnotin. rewrite <- E. now apply in_map.
Qed.

(** ** A principal whose address is current *)

Section AlreadyCurrent.

Variable d : DomainChanger.
Variable flt : Faults.
Variable k : kind.
Variable u : Principal.
Variable cs0 : list Call.
Variable ids0 : list string.

Local Notation "'Inv'" := (leftAlone k u cs0 ids0).

Lemma leftAlone_UpdateDo (key : string) (p : Principal) :
  key <> Id u ->
  hoare Inv (UpdateDo flt k key p)
    (fun r w => Inv w /\ forall q, r = Some q -> Id q = key) Inv.
Proof.
  intros Hkey w (Hup & Hst & Hids & Hins).
  destruct (UpdateDo_effect flt k key p w) as (l' & r & -> & Hcase).
  assert (HI : Inv (mkWorld (withColl k l' (dir w))
                      (calls w ++ [Update k key (Email p)]))).
  { unfold leftAlone. simpl. rewrite coll_withColl. repeat split.
    - intros c Hc Hu. apply in_app_or in Hc as [Hc|[<-|[]]]; [now apply Hup|].
      rewrite isUpdateOf_Update in Hu. apply String.eqb_eq in Hu. congruence.
    - intros q Hq Hid. destruct Hcase as [(-> & _)|(_ & -> & _)]; [now apply Hst|].
      apply modifyId_In in Hq as (q0 & Hin & [(E & ->)|(_ & ->)]).
      + simpl in Hid. congruence.
      + now apply Hst.
    - destruct Hcase as [(-> & _)|(_ & -> & _)]; [assumption|].
      now rewrite modifyId_ids.
    - intros Hal c Hc Hu. apply in_app_or in Hc as [Hc|[<-|[]]]; [now apply Hins|].
      destruct k; discriminate. }
  split; [exact HI|].
  intros q ->. destruct Hcase as [(_ & Hr)|(_ & _ & q' & Hr & Hl)]; [discriminate|].
  injection Hr as ->. now apply lookupId_Some in Hl.
Qed.

Lemma leftAlone_AliasesInsertDo (key alias : string) :
  (Aliases u = [] -> key <> Id u) ->
  hoare Inv (AliasesInsertDo flt k key alias) (fun _ => Inv) Inv.
Proof.
  intros Hkey w (Hup & Hst & Hids & Hins).
  destruct (AliasesInsertDo_effect flt k key alias w) as (l' & b & -> & Hcase).
  unfold leftAlone. simpl. rewrite coll_withColl. repeat split.
  - intros c Hc Hu. apply in_app_or in Hc as [Hc|[<-|[]]]; [now apply Hup|].
    destruct k; discriminate.
  - intros q Hq Hid. destruct Hcase as [->| ->]; [now apply Hst|].
    apply modifyId_In in Hq as (q0 & Hin & [(E & ->)|(_ & ->)]).
    + simpl in *. now apply Hst.
    + now apply Hst.
  - destruct Hcase as [->| ->]; [assumption|]. now rewrite modifyId_ids.
  - intros Hal c Hc Hu. apply in_app_or in Hc as [Hc|[<-|[]]]; [now apply Hins|].
    rewrite isInsertOf_AliasesInsert in Hu. apply String.eqb_eq in Hu.
    specialize (Hkey Hal). congruence.
Qed.

Lemma leftAlone_UpdateAliases (p : Principal) :
  (Aliases u = [] -> Id p = Id u -> Aliases p = []) ->
  hoare Inv (UpdateAliases d flt k p) (fun _ => Inv) Inv.
Proof.
  intros Hp. unfold UpdateAliases.
  apply hoare_bind with (R := fun _ => Inv).
  { apply hoare_eval; auto. }
  intros oldAddress. apply hoare_forEach. intros a Ha.
  unfold aliasBody. destruct (negb (String.eqb a oldAddress)).
  - apply hoare_bind with (R := fun _ => Inv).
    { apply hoare_eval; auto. }
    intros newA. destruct (negb (hasAlias newA (Aliases p))).
    + apply hoare_bind with (R := fun _ => Inv).
      * apply leftAlone_AliasesInsertDo. intros Hal E.
        rewrite (Hp Hal E) in Ha. destruct Ha.
      * intros _. now apply hoare_ret.
    + now apply hoare_ret.
  - now apply hoare_ret.
Qed.

End AlreadyCurrent.

Lemma leftAlone_passBody (d : DomainChanger) (flt : Faults) (k : kind)
    (u : Principal) (cs0 : list Call) (ids0 : list string) (x : Principal) :
  emailNewDomain d (Email u) = Returns (Email u) ->
  (Id x = Id u -> x = u) ->
  hoare (leftAlone k u cs0 ids0) (passBody d flt k x)
    (fun _ => leftAlone k u cs0 ids0) (leftAlone k u cs0 ids0).
Proof.
  intros u_current Hx.
  assert (Hup : forall e, emailNewDomain d (Email x) = Returns e ->
                  String.eqb e (Email x) = false -> Id x <> Id u).
  { intros e He Hne E. rewrite (Hx E), u_current in He.
    injection He as <-. rewrite (Hx E), String.eqb_refl in Hne. discriminate. }
  destruct k; simpl; unfold userBody, groupBody;
    set (Inv := leftAlone _ u cs0 ids0).
  - apply hoare_bind
      with (R := fun e w => Inv w /\ emailNewDomain d (Email x) = Returns e).
    { apply hoare_eval; auto. }
    intros e.
    apply hoare_bind
      with (R := fun x' w => Inv w /\ (Id x' = Id u -> x' = u)).
    + destruct (String.eqb e (Email x)) eqn:E.
      * apply hoare_ret. intros w (Hw & _). auto.
      * apply hoare_bind
          with (R := fun r w => (Inv w /\ forall q, r = Some q -> Id q = Id x)
                                /\ Id x <> Id u).
        { intros w (Hw & He).
          pose proof (leftAlone_UpdateDo flt _ u cs0 ids0 (Id x) (setEmail e x)
                        (Hup e He E) w Hw) as H.
          destruct (UpdateDo flt KUser (Id x) (setEmail e x) w) as [w1 [r| |]];
            try exact H. split; [exact H | exact (Hup e He E)]. }
        intros [q|].
        { apply hoare_ret. intros w ((Hw & Hq) & Hne). split; [assumption|].
          intros Eq. rewrite (Hq q eq_refl) in Eq. contradiction. }
        { intros w ((Hw & _) & _). exact Hw. }
    + intros x'. unfold UpdateUserAliases.
      intros w (Hw & Hx'). revert w Hw.
      apply leftAlone_UpdateAliases. intros Hal E. now rewrite (Hx' E).
  - apply hoare_bind
      with (R := fun e w => Inv w /\ emailNewDomain d (Email x) = Returns e).
    { apply hoare_eval; auto. }
    intros e.
    apply hoare_bind
      with (R := fun x' w => Inv w /\ (Id x' = Id u -> x' = u)).
    + destruct (String.eqb e (Email x)) eqn:E.
      * apply hoare_ret. intros w (Hw & _). auto.
      * apply hoare_bind with (R := fun r w => Inv w /\ Id x <> Id u).
        { intros w (Hw & He).
          pose proof (leftAlone_UpdateDo flt _ u cs0 ids0 (Id x) (setEmail e x)
                        (Hup e He E) w Hw) as H.
          destruct (UpdateDo flt KGroup (Id x) (setEmail e x) w) as [w1 [r| |]];
            try exact H. split; [exact (proj1 H) | exact (Hup e He E)]. }
        intros [q|].
        { apply hoare_ret. intros w (Hw & Hne). split; [assumption|].
          intros Eq. simpl in Eq. contradiction. }
        { intros w (Hw & _). exact Hw. }
    + intros x'. unfold UpdateGroupAliases.
      intros w (Hw & Hx'). revert w Hw.
      apply leftAlone_UpdateAliases. intros Hal E. now rewrite (Hx' E).
Qed.

(** ** A pass completes when no update fails *)

Lemma total_eval {A} (P : World -> Prop) (o : outcome A) (a : A)
    (Q : A -> World -> Prop) :
  o = Returns a -> (forall w, P w -> Q a w) -> total P (eval o) Q.
Proof. intros -> H w Hw. exists a, w. split; [reflexivity | auto]. Qed.

Lemma wfPrincipal_setEmail (e : string) (q : Principal) :
  hasAt e = true -> wfPrincipal q = true -> wfPrincipal (setEmail e q) = true.
Proof.
  unfold wfPrincipal. simpl. intros -> H.
  apply andb_true_iff in H as (_ & ->). reflexivity.
Qed.

Lemma wfPrincipal_addAlias (a : string) (q : Principal) :
  hasAt a = true -> wfPrincipal q = true -> wfPrincipal (addAlias a q) = true.
Proof.
  unfold wfPrincipal. simpl. intros Ha H.
  apply andb_true_iff in H as (-> & H). rewrite forallb_app, H. simpl.
  now rewrite Ha.
Qed.

Section Completes.

Variable d : DomainChanger.
Variable flt : Faults.
Variable k : kind.
Variable ids0 : list string.

Local Notation "'Wf'" := (wfWorld k ids0).

Lemma total_AliasesInsertDo (key alias : string) :
  hasAt alias = true ->
  total Wf (AliasesInsertDo flt k key alias) (fun _ => Wf).
Proof.
  intros Ha w (Hwf & Hids).
  destruct (AliasesInsertDo_effect flt k key alias w) as (l' & b & E & Hcase).
  exists b. eexists. split; [exact E|].
  unfold wfWorld. simpl. rewrite coll_withColl.
  destruct Hcase as [->| ->]; [now split|]. split.
  - apply modifyId_wfStore; [|assumption].
    intros q. now apply wfPrincipal_addAlias.
  - now rewrite modifyId_ids.
Qed.

Lemma total_UpdateDo (key : string) (p : Principal) :
  failUpdate flt k key = false ->
  In key ids0 ->
  hasAt (Email p) = true ->
  total Wf (UpdateDo flt k key p)
    (fun r w => Wf w /\ exists q, r = Some q /\ wfPrincipal q = true).
Proof.
  intros Ef Hin He w (Hwf & Hids). rewrite <- Hids in Hin.
  destruct (UpdateDo_succeeds flt k key p w Ef Hin) as (q & E & Hl).
  exists (Some q). eexists. split; [exact E|].
  assert (Hwf' : wfStore (modifyId key (setEmail (Email p)) (coll k (dir w))) = true).
  { apply modifyId_wfStore; [|assumption].
    intros q0. now apply wfPrincipal_setEmail. }
  unfold wfWorld. simpl. rewrite coll_withColl. split; [split|].
  - exact Hwf'.
  - now rewrite modifyId_ids.
  - exists q. split; [reflexivity|].
    apply lookupId_Some in Hl as (Hq & _).
    unfold wfStore in Hwf'. rewrite forallb_forall in Hwf'. now apply Hwf'.
Qed.

Lemma total_aliasBody (p : Principal) (oldAddress a : string) :
  hasAt a = true ->
  total Wf (aliasBody d flt k p oldAddress a) (fun _ => Wf).
Proof.
  intros Ha. unfold aliasBody.
  destruct (negb (String.eqb a oldAddress)); [|now apply total_ret].
  destruct (changeEmailDomain_hasAt a (newDomain d) Ha) as (n & Hn & Hat).
  apply total_bind with (R := fun newA w => Wf w /\ newA = n).
  { now apply total_eval with (a := n). }
  intros newA.
  destruct (negb (hasAlias newA (Aliases p))).
  - apply total_bind with (R := fun _ => Wf).
    + intros w (Hw & ->). now apply total_AliasesInsertDo.
    + intros _. now apply total_ret.
  - apply total_ret. now intros w (Hw & _).
Qed.

Lemma total_UpdateAliases (p : Principal) :
  wfPrincipal p = true ->
  total Wf (UpdateAliases d flt k p) (fun _ => Wf).
Proof.
  intros Hp. apply andb_true_iff in Hp as (He & Hal).
  destruct (changeEmailDomain_hasAt (Email p) (oldDomain d) He) as (o & Ho & _).
  unfold UpdateAliases.
  apply total_bind with (R := fun _ => Wf).
  { now apply total_eval with (a := o). }
  intros oldAddress. apply total_forEach. intros a Ha.
  apply total_aliasBody. rewrite forallb_forall in Hal. now apply Hal.
Qed.

End Completes.

Lemma total_passBody (d : DomainChanger) (flt : Faults) (k : kind)
    (ids0 : list string) (x : Principal) :
  wfPrincipal x = true ->
  In (Id x) ids0 ->
  failUpdate flt k (Id x) = false ->
  total (wfWorld k ids0) (passBody d flt k x) (fun _ => wfWorld k ids0).
Proof.
  intros Hx Hin Ef. pose proof Hx as Hx'.
  apply andb_true_iff in Hx' as (He & Hal).
  destruct (changeEmailDomain_hasAt (Email x) (newDomain d) He) as (n & Hn & Hat).
  destruct k; simpl; unfold userBody, groupBody.
  - apply total_bind with (R := fun e w => wfWorld KUser ids0 w /\ e = n).
    { now apply total_eval with (a := n). }
    intros e.
    apply total_bind
      with (R := fun x' w => wfWorld KUser ids0 w /\ wfPrincipal x' = true).
    + destruct (String.eqb e (Email x)).
      * apply total_ret. now intros w (Hw & _).
      * apply total_bind
          with (R := fun r w => wfWorld KUser ids0 w /\
                                exists q, r = Some q /\ wfPrincipal q = true).
        { intros w (Hw & ->). now apply total_UpdateDo. }
        intros r w (Hw & q & -> & Hq). exists q, w. now split.
    + intros x' w (Hw & Hx''). now apply total_UpdateAliases.
  - apply total_bind with (R := fun e w => wfWorld KGroup ids0 w /\ e = n).
    { now apply total_eval with (a := n). }
    intros e.
    apply total_bind
      with (R := fun x' w => wfWorld KGroup ids0 w /\ wfPrincipal x' = true).
    + destruct (String.eqb e (Email x)).
      * apply total_ret. now intros w (Hw & _).
      * apply total_bind
          with (R := fun r w => (wfWorld KGroup ids0 w /\
                                 exists q, r = Some q /\ wfPrincipal q = true)
                                /\ e = n).
        { intros w (Hw & ->).
          destruct (total_UpdateDo flt KGroup ids0 (Id x) (setEmail n x) Ef Hin Hat w Hw)
            as (r & w1 & E & H).
          exists r, w1. split; [exact E|]. split; [exact H | reflexivity]. }
        intros r w ((Hw & q & -> & Hq) & ->).
        exists (setEmail n x), w. split; [reflexivity|]. split; [assumption|].
        now apply wfPrincipal_setEmail.
    + intros x' w (Hw & Hx''). now apply total_UpdateAliases.
Qed.

Lemma UpdatePass_total (d : DomainChanger) (flt : Faults) (k : kind) (w : World) :
  failList flt k = false ->
  (forall key, failUpdate flt k key = false) ->
  wfStore (coll k (dir w)) = true ->
  exists w', UpdatePass d flt k w = (w', Returns tt).
Proof.
  intros Hl Hu Hwf. rewrite UpdatePass_eq by assumption.
  destruct (total_forEach (wfWorld k (map Id (coll k (dir w))))
              (passBody d flt k) (firstn (pageSize k) (coll k (dir w))))
    with (w := w) as ([] & w' & E & _).
  - intros x Hx. apply In_firstn in Hx.
    apply total_passBody; [| now apply in_map | apply Hu].
    unfold wfStore in Hwf. rewrite forallb_forall in Hwf. now apply Hwf.
  - now split.
  - now exists w'.
Qed.


(** ** A failed update ends the pass *)

Lemma passBody_update_fails (d : DomainChanger) (flt : Faults) (k : kind)
    (u : Principal) (e : string) (w : World) :
  emailNewDomain d (Email u) = Returns e ->
  e <> Email u ->
  failUpdate flt k (Id u) = true ->
  passBody d flt k u w =
    (mkWorld (dir w) (calls w ++ [Update k (Id u) e]), Panics NilDereference).
Proof.
  intros He Hne Ef. apply String.eqb_neq in Hne.
  destruct k; simpl; unfold userBody, groupBody, bind, eval, UpdateDo;
    rewrite He, Hne; simpl; rewrite Ef; reflexivity.
Qed.

(** ** Calls of the alias pass *)

Lemma calls_kept_AliasesInsertDo (flt : Faults) (k : kind) (key alias : string)
    (c : Call) :
  hoare (fun w => In c (calls w)) (AliasesInsertDo flt k key alias)
    (fun _ w => In c (calls w)) (fun w => In c (calls w)).
Proof.
  intros w Hw.
  destruct (AliasesInsertDo_effect flt k key alias w) as (l' & b & -> & _).
  simpl. apply in_or_app. now left.
Qed.

Lemma calls_kept_aliasLoop (d : DomainChanger) (flt : Faults) (k : kind)
    (p : Principal) (oldAddress : string) (l : list string) (c : Call) :
  hoare (fun w => In c (calls w)) (forEach (aliasBody d flt k p oldAddress) l)
    (fun _ w => In c (calls w)) (fun w => In c (calls w)).
Proof.
  apply hoare_forEach. intros a _. unfold aliasBody.
  destruct (negb (String.eqb a oldAddress)); [|now apply hoare_ret].
  apply hoare_bind with (R := fun _ w => In c (calls w)).
  { apply hoare_eval; auto. }
  intros newA. destruct (negb (hasAlias newA (Aliases p))); [|now apply hoare_ret].
  apply hoare_bind with (R := fun _ w => In c (calls w)).
  - apply calls_kept_AliasesInsertDo.
  - intros _. now apply hoare_ret.
Qed.

Lemma aliasLoop_inserts (d : DomainChanger) (flt : Faults) (k : kind)
    (p : Principal) (oldAddress a newA : string) (l : list string) :
  In a l -> a <> oldAddress ->
  emailNewDomain d a = Returns newA ->
  hasAlias newA (Aliases p) = false ->
  forall w w',
    forEach (aliasBody d flt k p oldAddress) l w = (w', Returns tt) ->
    In (AliasesInsert k (Id p) newA) (calls w').
Proof.
  intros Hin Hne Hn Hh. apply String.eqb_neq in Hne.
  induction l as [|a0 l IH]; [destruct Hin|].
  intros w w' H. apply forEach_cons_Returns in H as (w1 & H1 & H2).
  destruct Hin as [->|Hin]; [|now apply (IH Hin w1 w')].
  assert (Hc : In (AliasesInsert k (Id p) newA) (calls w1)).
  { unfold aliasBody in H1. rewrite Hne in H1. simpl in H1.
    unfold bind at 1, eval in H1. rewrite Hn, Hh in H1. simpl in H1.
    unfold bind in H1.
    destruct (AliasesInsertDo_effect flt k (Id p) newA w) as (l' & b & E & _).
    rewrite E in H1. unfold ret in H1. injection H1 as <-.
    simpl. apply in_or_app. right. now left. }
  exact (hoare_run _ _ _ _ _ _ _
           (calls_kept_aliasLoop d flt k p oldAddress l _) Hc H2).
Qed.

(** ** The lower case of an answer *)

Lemma lowerByte_y (c : ascii) :
  lowerByte c = "y"%char <-> c = "y"%char \/ c = "Y"%char.
Proof.
  destruct c as [[] [] [] [] [] [] [] []]; vm_compute;
    (split; [intros H; try discriminate H; auto
            | intros [H|H]; try discriminate H; reflexivity]).
Qed.

Lemma lowerByte_n (c : ascii) :
  lowerByte c = "n"%char <-> c = "n"%char \/ c = "N"%char.
Proof.
  destruct c as [[] [] [] [] [] [] [] []]; vm_compute;
    (split; [intros H; try discriminate H; auto
            | intros [H|H]; try discriminate H; reflexivity]).
Qed.

Lemma ToLower_y (code : string) : ToLower code = "y" <-> code = "y" \/ code = "Y".
Proof.
  destruct code as [|c [|c' rest]]; simpl.
  - split; [discriminate | intros [H|H]; discriminate].
  - split.
    + intros H. injection H as H. apply lowerByte_y in H as [->| ->]; auto.
    + intros [H|H]; injection H as ->; reflexivity.
  - split; [discriminate | intros [H|H]; discriminate].
Qed.

Lemma ToLower_n (code : string) : ToLower code = "n" <-> code = "n" \/ code = "N".
Proof.
  destruct code as [|c [|c' rest]]; simpl.
  - split; [discriminate | intros [H|H]; discriminate].
  - split.
    + intros H. injection H as H. apply lowerByte_n in H as [->| ->]; auto.
    + intros [H|H]; injection H as ->; reflexivity.
  - split; [discriminate | intros [H|H]; discriminate].
Qed.

(** ** The scenarios of the specification *)

(** A user whose only alias is the old address: renamed, no insert. *)
Example scenario_alias_is_old_address :
  calls (fst (UpdateUsers exampleChanger noFaults
                (mkWorld (directoryOf [mkPrincipal "1" "Alice" "alice@old.com"
                                         ["alice@old.com"]] []) [])))
  = [Update KUser "1" "alice@new.com"].
Proof. vm_compute. reflexivity. Qed.

(** A user with another alias on the old domain: renamed, alias mirrored. *)
Example scenario_alias_mirrored :
  calls (fst (UpdateUsers exampleChanger noFaults
                (mkWorld (directoryOf [mkPrincipal "2" "Bob" "bob@old.com"
                                         ["robert@old.com"]] []) [])))
  = [Update KUser "2" "bob@new.com"; AliasesInsert KUser "2" "robert@new.com"].
Proof. vm_compute. reflexivity. Qed.

(** A user already on the new domain, without aliases: no call. *)
Example scenario_already_current :
  UpdateUsers exampleChanger noFaults (mkWorld (directoryOf [carol] []) [])
  = (mkWorld (directoryOf [carol] []) [], Returns tt).
Proof. vm_compute. reflexivity. Qed.

(** A group whose alias is already mirrored: renamed, no insert. *)
Example scenario_group_alias_present :
  calls (fst (UpdateGroups exampleChanger noFaults
                (mkWorld (directoryOf [] [team]) [])))
  = [Update KGroup "g1" "team@new.com"].
Proof. vm_compute. reflexivity. Qed.

(** The customer is already on the new domain and the answer is [n]: the
    process exits before the passes, without a call. *)
Example scenario_answer_n :
  main noFaults "old.com" "new.com" (Some "n")
    (mkWorld (mkDirectory (mkCustomer "C01" "new.com") [alice] [team]) [])
  = (mkWorld (mkDirectory (mkCustomer "C01" "new.com") [alice] [team]) [],
     Exits "Done.").
Proof. vm_compute. reflexivity. Qed.

(** * The claims *)

Ltac nodup_ids :=
  simpl; repeat (constructor; [simpl; intuition discriminate|]); constructor.

(** C1.  The user pass asks for one page of at most 50 users and the group
    pass for one page of at most [groupsDefaultMaxResults] groups; neither
    asks for a further page.  On an account with 51 users and 201 groups,
    all on the old domain, both passes return normally, while the last user
    and the last group are still on the old domain and no update call was
    issued for them. *)
Theorem passes_stop_after_first_page :
  let w0 := mkWorld bigDirectory [] in
  let lastUser := numbered "old.com" 50 in
  let lastGroup := numbered "old.com" 200 in
  nth_error (users (dir w0)) 50 = Some lastUser /\
  nth_error (groups (dir w0)) 200 = Some lastGroup /\
  emailNewDomain exampleChanger (Email lastUser)
    = Returns (Email (numbered "new.com" 50)) /\
  emailNewDomain exampleChanger (Email lastGroup)
    = Returns (Email (numbered "new.com" 200)) /\
  exists w1,
    UpdateAll exampleChanger noFaults w0 = (w1, Returns tt) /\
    nth_error (users (dir w1)) 50 = Some lastUser /\
    nth_error (groups (dir w1)) 200 = Some lastGroup /\
    existsb (isUpdateOf KUser (Id lastUser)) (calls w1) = false /\
    existsb (isUpdateOf KGroup (Id lastGroup)) (calls w1) = false /\
    length (calls w1) = 250.
Proof.
  cbv zeta. repeat (split; [vm_compute; reflexivity|]).
  eexists. split; [vm_compute; reflexivity|].
  repeat split; vm_compute; reflexivity.
Qed.

(** C2.  A user on the old domain without aliases is renamed and no alias
    is inserted: the old address reached the user before the run and reaches
    nobody after it. *)
Theorem old_address_lost_without_aliases :
  let w0 := mkWorld (directoryOf [bob] []) [] in
  let bob' := mkPrincipal "2" "Bob" "bob@new.com" [] in
  reachable "bob@old.com" bob = true /\
  UpdateAll exampleChanger noFaults w0 =
    (mkWorld (directoryOf [bob'] []) [Update KUser "2" "bob@new.com"], Returns tt) /\
  reachable "bob@old.com" bob' = false.
Proof. repeat split; vm_compute; reflexivity. Qed.

(** C3, as the claim has it, fails: the update of the first of two users
    fails; the pass does not go on to the second user, who needs a rename:
    it does not return, the only call in the log is the failed update, and
    the second user is as before. *)
Lemma failed_update_stops_user_pass :
  let r := UpdateUsers exampleChanger (failUpdateOf "1")
             (mkWorld (directoryOf [alice; bob] []) []) in
  emailNewDomain exampleChanger (Email bob) = Returns "bob@new.com" /\
  returned (snd r) = false /\
  calls (fst r) = [Update KUser "1" "alice@new.com"] /\
  users (dir (fst r)) = [alice; bob].
Proof. repeat split; vm_compute; reflexivity. Qed.

(** C3, amended.  In the user pass and in the group pass alike: when the
    update of a principal of the listed page fails, the pass ends at that
    principal, the failed update being the last call issued, so that no
    call is issued for a later principal; failing alias inserts never end a
    pass: when the listing and every update succeed and every stored
    address has a separator, the pass returns whichever inserts fail. *)
Theorem update_failure_ends_pass_insert_failure_does_not
    (d : DomainChanger) (k : kind) :
  (forall flt w w1 us1 u us2 e,
     failList flt k = false ->
     firstn (pageSize k) (coll k (dir w)) = us1 ++ u :: us2 ->
     forEach (passBody d flt k) us1 w = (w1, Returns tt) ->
     emailNewDomain d (Email u) = Returns e ->
     e <> Email u ->
     failUpdate flt k (Id u) = true ->
     exists o,
       UpdatePass d flt k w =
         (mkWorld (dir w1) (calls w1 ++ [Update k (Id u) e]), o) /\
       returned o = false) /\
  (forall flt w,
     failList flt k = false ->
     (forall key, failUpdate flt k key = false) ->
     wfStore (coll k (dir w)) = true ->
     exists w', UpdatePass d flt k w = (w', Returns tt)).
Proof.
  split.
  - intros flt w w1 us1 u us2 e Hl Hpage H1 He Hne Ef.
    rewrite UpdatePass_eq by assumption. rewrite Hpage.
    rewrite (forEach_app _ _ (u :: us2) _ _ H1). simpl. unfold bind.
    rewrite (passBody_update_fails d flt k u e w1 He Hne Ef).
    now exists (Panics NilDereference).
  - intros flt w. apply UpdatePass_total.
Qed.

Lemma update_failure_ends_pass_insert_failure_does_not_witness :
  (exists o,
     UpdatePass exampleChanger (failUpdateOf "2") KUser
       (mkWorld (directoryOf [alice; bob; dave] []) []) =
       (mkWorld (directoryOf [mkPrincipal "1" "Alice" "alice@new.com"
                                ["al@old.com"; "al@new.com"]; bob; dave] [])
          ([Update KUser "1" "alice@new.com"; AliasesInsert KUser "1" "al@new.com"]
           ++ [Update KUser "2" "bob@new.com"]),
        o) /\
     returned o = false) /\
  exists w', UpdatePass exampleChanger failInserts KGroup
               (mkWorld (directoryOf [] [team]) []) = (w', Returns tt).
Proof.
  split.
  - apply (proj1 (update_failure_ends_pass_insert_failure_does_not exampleChanger KUser)
             (failUpdateOf "2") (mkWorld (directoryOf [alice; bob; dave] []) [])
             (mkWorld (directoryOf [mkPrincipal "1" "Alice" "alice@new.com"
                                      ["al@old.com"; "al@new.com"]; bob; dave] [])
                [Update KUser "1" "alice@new.com"; AliasesInsert KUser "1" "al@new.com"])
             [alice] bob [dave] "bob@new.com").
    + reflexivity.
    + reflexivity.
    + vm_compute. reflexivity.
    + vm_compute. reflexivity.
    + discriminate.
    + reflexivity.
  - apply (proj2 (update_failure_ends_pass_insert_failure_does_not exampleChanger KGroup)
             failInserts (mkWorld (directoryOf [] [team]) [])).
    + reflexivity.
    + reflexivity.
    + vm_compute. reflexivity.
Defined.




(** C5, as the claim has it, fails: on the address [bob], which has no
    separator, [changeEmailDomain] ends by the index-out-of-range panic of
    the assignment to index 1; it is no error exit. *)
Lemma changeEmailDomain_bob_panics :
  hasAt "bob" = false /\
  Split "bob" = ["bob"] /\
  changeEmailDomain "bob" "new.com" = Panics IndexOutOfRange.
Proof. repeat split; reflexivity. Qed.

(** C5, amended.  On an address without separator [changeEmailDomain]
    returns no result and takes no error branch: the split has one element
    and the assignment to index 1 panics, index out of range. *)
Theorem changeEmailDomain_without_separator_panics (email domain : string) :
  hasAt email = false ->
  changeEmailDomain email domain = Panics IndexOutOfRange.
Proof.
  intros H. unfold changeEmailDomain. now rewrite (Split_noAt email H).
Qed.

Lemma changeEmailDomain_without_separator_panics_witness :
  changeEmailDomain "postmaster" "new.com" = Panics IndexOutOfRange.
Proof.
  apply (changeEmailDomain_without_separator_panics "postmaster" "new.com").
  reflexivity.
Defined.

(** C6.  For an address [local@domain] with one separator (none in [local],
    none in [domain]) the rewrite to the new domain, and to any domain,
    returns [local@newDomain]: the local part is the one of the input. *)
Theorem rewrite_keeps_local_part (d : DomainChanger)
    (local domain other : string) :
  hasAt local = false ->
  hasAt domain = false ->
  emailNewDomain d (local ++ "@" ++ domain)%string
    = Returns (local ++ "@" ++ newDomain d)%string /\
  changeEmailDomain (local ++ "@" ++ domain)%string other
    = Returns (local ++ "@" ++ other)%string.
Proof.
  intros Hl Hd.
  assert (H : forall dom, changeEmailDomain (local ++ "@" ++ domain)%string dom
                          = Returns (local ++ "@" ++ dom)%string).
  { intros dom. unfold changeEmailDomain. simpl.
    rewrite (Split_app_at local domain Hl), (Split_noAt domain Hd). reflexivity. }
  split; [apply H | apply H].
Qed.

Lemma rewrite_keeps_local_part_witness :
  emailNewDomain exampleChanger "bob@old.com" = Returns "bob@new.com" /\
  changeEmailDomain "bob@old.com" "shop.example" = Returns "bob@shop.example".
Proof.
  apply (rewrite_keeps_local_part exampleChanger "bob" "old.com" "shop.example");
    reflexivity.
Defined.

(** C7.  A user whose aliases [sales@old.com] and [sales@shop.example] both
    rewrite to [sales@new.com]: the candidate is compared with the aliases
    as they were listed, so the alias pass issues the insert of
    [sales@new.com] twice, and the directory that stores what it is sent
    holds the alias twice. *)
Theorem same_candidate_inserted_twice :
  let w0 := mkWorld (directoryOf [dave] []) [] in
  let dave' := mkPrincipal "4" "Dave" "dave@new.com"
                 ["sales@old.com"; "sales@shop.example";
                  "sales@new.com"; "sales@new.com"] in
  emailNewDomain exampleChanger "sales@old.com" = Returns "sales@new.com" /\
  emailNewDomain exampleChanger "sales@shop.example" = Returns "sales@new.com" /\
  UpdateUsers exampleChanger noFaults w0 =
    (mkWorld (directoryOf [dave'] [])
       [Update KUser "4" "dave@new.com";
        AliasesInsert KUser "4" "sales@new.com";
        AliasesInsert KUser "4" "sales@new.com"],
     Returns tt) /\
  ~ NoDup (Aliases dave').
Proof.
  cbv zeta. repeat (split; [vm_compute; reflexivity|]).
  simpl. intros H.
  inversion H as [|? ? _ H1]; subst. inversion H1 as [|? ? _ H2]; subst.
  inversion H2 as [|? ? Hn _]; subst. apply Hn. now left.
Qed.

(** C8.  A principal of the collection whose address is already on the new
    domain, in a pass over a collection with distinct identifiers, whatever
    calls fail and however the pass ends: the pass adds no update call for
    the principal to the log; every stored principal with its identifier
    keeps its address, and the identifiers of the collection are kept; when
    the principal has no alias, the pass adds no insert call for it either. *)
Theorem current_principal_left_alone (d : DomainChanger) (flt : Faults)
    (k : kind) (u : Principal) (w w' : World) (o : outcome unit) :
  NoDup (map Id (coll k (dir w))) ->
  In u (coll k (dir w)) ->
  emailNewDomain d (Email u) = Returns (Email u) ->
  UpdatePass d flt k w = (w', o) ->
  (forall c, In c (calls w') -> isUpdateOf k (Id u) c = true -> In c (calls w)) /\
  (forall q, In q (coll k (dir w')) -> Id q = Id u -> Email q = Email u) /\
  map Id (coll k (dir w')) = map Id (coll k (dir w)) /\
  (Aliases u = [] ->
   forall c, In c (calls w') -> isInsertOf k (Id u) c = true -> In c (calls w)).
Proof.
  intros Hn Hu Hcur H.
  assert (H0 : leftAlone k u (calls w) (map Id (coll k (dir w))) w).
  { unfold leftAlone. repeat split; auto.
    intros q Hq E. now rewrite (NoDup_Id_eq _ q u Hn Hq Hu E). }
  destruct (failList flt k) eqn:Hl.
  - destruct (UpdatePass_list_fails d flt k w Hl) as (msg & E).
    rewrite E in H. injection H as <- _. exact H0.
  - rewrite UpdatePass_eq in H by assumption.
    assert (Hh : hoare (leftAlone k u (calls w) (map Id (coll k (dir w))))
                   (forEach (passBody d flt k) (firstn (pageSize k) (coll k (dir w))))
                   (fun _ => leftAlone k u (calls w) (map Id (coll k (dir w))))
                   (leftAlone k u (calls w) (map Id (coll k (dir w))))).
    { apply hoare_forEach. intros x Hx. apply In_firstn in Hx.
      apply leftAlone_passBody; [assumption|].
      intros E. exact (NoDup_Id_eq _ x u Hn Hx Hu E). }
    pose proof (hoare_run _ _ _ _ _ _ _ Hh H0 H) as Hr.
    destruct o; exact Hr.
Qed.

Lemma current_principal_left_alone_witness :
  let w0 := mkWorld (directoryOf [alice; carol] []) [] in
  let r := UpdatePass exampleChanger noFaults KUser w0 in
  (forall c, In c (calls (fst r)) -> isUpdateOf KUser "3" c = true -> False) /\
  (forall q, In q (users (dir (fst r))) -> Id q = "3" -> Email q = "carol@new.com") /\
  map Id (users (dir (fst r))) = ["1"; "3"] /\
  (forall c, In c (calls (fst r)) -> isInsertOf KUser "3" c = true -> False).
Proof.
  cbv zeta.
  destruct (current_principal_left_alone exampleChanger noFaults KUser carol
              (mkWorld (directoryOf [alice; carol] []) [])
              (fst (UpdatePass exampleChanger noFaults KUser
                      (mkWorld (directoryOf [alice; carol] []) [])))
              (snd (UpdatePass exampleChanger noFaults KUser
                      (mkWorld (directoryOf [alice; carol] []) []))))
    as (H1 & H2 & H3 & H4).
  - nodup_ids.
  - simpl. right. left. reflexivity.
  - reflexivity.
  - vm_compute. reflexivity.
  - split; [exact H1|]. split; [exact H2|]. split; [exact H3|]. exact (H4 eq_refl).
Defined.

(** C9.  The two confirmation gates of [ChangePrimaryDomain], for an answer
    [code] that was read.  When the customer's domain is not yet the new
    one: the customer update is issued exactly when the lower case of the
    answer is [y] (the call then returns unless the update fails), and any
    other answer exits with [Abort!] without a call.  When the customer's
    domain is already the new one: the answers whose lower case is [n] exit
    with [Done.], and every other answer returns without a call, so that
    the user pass and the group pass follow. *)
Theorem confirmation_gates (d : DomainChanger) (flt : Faults) (code : string)
    (w : World) :
  (checkNewDomain d = true ->
     (ToLower code = "y" ->
        calls (fst (ChangePrimaryDomain d flt (Some code) w))
          = calls w ++ [CustomersUpdate (CustomerId (cust d)) (newDomain d)] /\
        snd (ChangePrimaryDomain d flt (Some code) w)
          = (if failCustomersUpdate flt
             then Exits "Unable to update customer primary domain."
             else Returns tt)) /\
     (ToLower code <> "y" ->
        ChangePrimaryDomain d flt (Some code) w = (w, Exits "Abort!"))) /\
  (checkNewDomain d = false ->
     (ToLower code = "n" ->
        ChangePrimaryDomain d flt (Some code) w = (w, Exits "Done.")) /\
     (ToLower code <> "n" ->
        ChangePrimaryDomain d flt (Some code) w = (w, Returns tt) /\
        (ChangePrimaryDomain d flt (Some code) ;;;
         UpdateUsers d flt ;;; UpdateGroups d flt) w = UpdateAll d flt w)).
Proof.
  split; intros Hc; unfold ChangePrimaryDomain; rewrite Hc; simpl; split.
  - intros Hy. rewrite Hy. simpl. unfold bind, CustomersUpdateDo.
    destruct (failCustomersUpdate flt); simpl; split; reflexivity.
  - intros Hy. apply String.eqb_neq in Hy. now rewrite Hy.
  - intros Hn. now rewrite Hn.
  - intros Hn. apply String.eqb_neq in Hn.
    assert (E : (if String.eqb (ToLower code) "n" then fatal "Done." else ret tt) w
                = (w, Returns tt)) by now rewrite Hn.
    split; [exact E|].
    unfold UpdateAll. now rewrite (bind_step _ _ _ _ _ E).
Qed.

Lemma confirmation_gates_witness :
  (calls (fst (ChangePrimaryDomain exampleChanger noFaults (Some "Y")
                 (mkWorld (directoryOf [bob] []) [])))
     = [CustomersUpdate "C01" "new.com"] /\
   snd (ChangePrimaryDomain exampleChanger noFaults (Some "Y")
          (mkWorld (directoryOf [bob] []) [])) = Returns tt) /\
  ChangePrimaryDomain exampleChanger noFaults (Some "yes")
    (mkWorld (directoryOf [bob] []) [])
    = (mkWorld (directoryOf [bob] []) [], Exits "Abort!") /\
  ChangePrimaryDomain (mkDomainChanger (mkCustomer "C01" "new.com") "old.com" "new.com")
    noFaults (Some "N") (mkWorld (directoryOf [bob] []) [])
    = (mkWorld (directoryOf [bob] []) [], Exits "Done.") /\
  ChangePrimaryDomain (mkDomainChanger (mkCustomer "C01" "new.com") "old.com" "new.com")
    noFaults (Some "maybe") (mkWorld (directoryOf [bob] []) [])
    = (mkWorld (directoryOf [bob] []) [], Returns tt).
Proof.
  split; [|split; [|split]].
  - apply (proj1 (proj1 (confirmation_gates exampleChanger noFaults "Y"
                           (mkWorld (directoryOf [bob] []) [])) eq_refl)).
    reflexivity.
  - apply (proj2 (proj1 (confirmation_gates exampleChanger noFaults "yes"
                           (mkWorld (directoryOf [bob] []) [])) eq_refl)).
    discriminate.
  - apply (proj1 (proj2 (confirmation_gates
                           (mkDomainChanger (mkCustomer "C01" "new.com") "old.com" "new.com")
                           noFaults "N" (mkWorld (directoryOf [bob] []) [])) eq_refl)).
    reflexivity.
  - apply (proj2 (proj2 (confirmation_gates
                           (mkDomainChanger (mkCustomer "C01" "new.com") "old.com" "new.com")
                           noFaults "maybe" (mkWorld (directoryOf [bob] []) [])) eq_refl)).
    discriminate.
Defined.

(** C10.  Addresses are compared as byte strings.  [hasAlias] answers true
    exactly when a string equal to the candidate is in the list; and an
    alias that is not the old address byte for byte (an alias that differs
    from it in letter case only is one) is mirrored: when its new-domain
    candidate is not among the listed aliases, an alias pass that returns
    has issued the insert of the candidate. *)
Theorem comparisons_are_exact (d : DomainChanger) (flt : Faults) (k : kind)
    (p : Principal) (oldAddress a newA : string) (w w' : World) :
  (forall alias aliases, hasAlias alias aliases = true <-> In alias aliases) /\
  (emailOldDomain d (Email p) = Returns oldAddress ->
   In a (Aliases p) ->
   a <> oldAddress ->
   emailNewDomain d a = Returns newA ->
   hasAlias newA (Aliases p) = false ->
   UpdateAliases d flt k p w = (w', Returns tt) ->
   In (AliasesInsert k (Id p) newA) (calls w')).
Proof.
  split; [exact hasAlias_In|].
  intros Ho Hin Hne Hn Hh H.
  unfold UpdateAliases, bind at 1, eval in H. rewrite Ho in H.
  exact (aliasLoop_inserts d flt k p oldAddress a newA (Aliases p)
           Hin Hne Hn Hh w w' H).
Qed.

Lemma comparisons_are_exact_witness :
  ToLower "Erin@old.com" = ToLower "erin@old.com" /\
  hasAlias "erin@old.com" (Aliases erin) = false /\
  In (AliasesInsert KUser "5" "Erin@new.com")
     (calls (fst (UpdateAliases exampleChanger noFaults KUser erin
                    (mkWorld (directoryOf [erin] []) [])))).
Proof.
  split; [reflexivity|]. split; [reflexivity|].
  apply (proj2 (comparisons_are_exact exampleChanger noFaults KUser erin
                  "erin@old.com" "Erin@old.com" "Erin@new.com"
                  (mkWorld (directoryOf [erin] []) [])
                  (fst (UpdateAliases exampleChanger noFaults KUser erin
                          (mkWorld (directoryOf [erin] []) []))))).
  - reflexivity.
  - simpl. left. reflexivity.
  - discriminate.
  - reflexivity.
  - reflexivity.
  - vm_compute. reflexivity.
Defined.

(** * Further properties of the code *)

(** ** Rewriting the domain segment *)

Lemma Join_Split (s : string) : Join (Split s) = s.
Proof.
  induction s as [|c s IH]; [reflexivity|].
  simpl. destruct (Ascii.eqb c "@") eqn:E.
  - apply Ascii.eqb_eq in E. subst c.
    destruct (Split s) as [|hd tl] eqn:Es; [now destruct (Split_not_nil s)|].
    change (Join (EmptyString :: hd :: tl)) with (String "@" (Join (hd :: tl))).
    now rewrite IH.
  - destruct (Split s) as [|hd tl] eqn:Es; [now destruct (Split_not_nil s)|].
    destruct tl as [|hd2 tl].
    + simpl in *. now rewrite IH.
    + change (Join (String c hd :: hd2 :: tl))
        with (String c (Join (hd :: hd2 :: tl))).
      now rewrite IH.
Qed.

Lemma append_length (s t : string) :
  String.length (s ++ t)%string = String.length s + String.length t.
Proof. induction s as [|c s IH]; simpl; [reflexivity | now rewrite IH]. Qed.

Lemma append_cancel_l (a x y : string) : (a ++ x = a ++ y)%string -> x = y.
Proof.
  induction a as [|c a IH]; simpl; [auto|].
  intros H. injection H as H. auto.
Qed.

Lemma append_cancel_r (t : string) :
  forall x y : string, (x ++ t = y ++ t)%string -> x = y.
Proof.
  induction x as [|c x IH]; intros [|c' y] H; simpl in H.
  - reflexivity.
  - exfalso. apply (f_equal String.length) in H. simpl in H.
    rewrite append_length in H. lia.
  - exfalso. apply (f_equal String.length) in H. simpl in H.
    rewrite append_length in H. lia.
  - injection H as -> H. f_equal. now apply IH.
Qed.

Lemma Join_second_inj (a b b' : string) (rest : list string) :
  Join (a :: b :: rest) = Join (a :: b' :: rest) -> b = b'.
Proof.
  change (Join (a :: b :: rest)) with (a ++ String "@" (Join (b :: rest)))%string.
  change (Join (a :: b' :: rest)) with (a ++ String "@" (Join (b' :: rest)))%string.
  intros H. apply append_cancel_l in H. injection H as H.
  destruct rest as [|r rest]; [exact H|].
  change (Join (b :: r :: rest)) with (b ++ String "@" (Join (r :: rest)))%string in H.
  change (Join (b' :: r :: rest)) with (b' ++ String "@" (Join (r :: rest)))%string in H.
  now apply append_cancel_r in H.
Qed.

(** X1.  Only the segment between the first and the second separator is
    replaced: for an address [l@m@r] where [l] and [m] have no separator
    ([r] may have more), the rewrite to any domain returns [l@domain@r]. *)
Theorem rewrite_replaces_second_segment_only (l m r domain : string) :
  hasAt l = false ->
  hasAt m = false ->
  changeEmailDomain (l ++ "@" ++ m ++ "@" ++ r)%string domain
    = Returns (l ++ "@" ++ domain ++ "@" ++ r)%string.
Proof.
  intros Hl Hm. unfold changeEmailDomain. simpl.
  rewrite (Split_app_at l _ Hl), (Split_app_at m r Hm). simpl.
  destruct (Split r) as [|hd tl] eqn:Er; [now destruct (Split_not_nil r)|].
  rewrite <- Er, Join_Split. reflexivity.
Qed.

Lemma rewrite_replaces_second_segment_only_witness :
  changeEmailDomain "a@b@c@d" "new.com" = Returns "a@new.com@c@d".
Proof.
  apply (rewrite_replaces_second_segment_only "a" "b" "c@d" "new.com"); reflexivity.
Defined.

(** X2.  [changeEmailDomain] returns exactly on the addresses that have a
    separator, and what it returns has a separator; it never exits. *)
Theorem rewrite_returns_iff_separator (email domain : string) :
  (hasAt email = true <-> exists n, changeEmailDomain email domain = Returns n) /\
  (forall n, changeEmailDomain email domain = Returns n -> hasAt n = true) /\
  (forall msg, changeEmailDomain email domain <> Exits msg).
Proof.
  split; [split|split].
  - intros H. destruct (changeEmailDomain_hasAt email domain H) as (n & Hn & _).
    now exists n.
  - intros (n & Hn). destruct (hasAt email) eqn:E; [reflexivity|].
    unfold changeEmailDomain in Hn. rewrite (Split_noAt email E) in Hn. discriminate.
  - intros n. apply changeEmailDomain_result_hasAt.
  - intros msg. apply changeEmailDomain_not_exit.
Qed.

(** X3.  The last rewrite wins: after a rewrite to a domain without
    separator, a rewrite to a second domain gives what the second rewrite
    gives on the original address.  So the old address computed from the
    renamed primary address is the one computed from the original, and a
    rewrite to the same domain twice is the rewrite once. *)
Theorem rewrite_twice (email d1 d2 n : string) :
  hasAt d1 = false ->
  changeEmailDomain email d1 = Returns n ->
  changeEmailDomain n d2 = changeEmailDomain email d2 /\
  changeEmailDomain n d1 = Returns n.
Proof.
  intros Hd H. split; [|exact (changeEmailDomain_idem email d1 n Hd H)].
  destruct (changeEmailDomain_inv _ _ _ H) as (a & b & rest & E & ->).
  pose proof (Split_parts_noAt email) as Hp. rewrite E in Hp.
  inversion Hp as [|? ? Ha Hp']; subst. inversion Hp' as [|? ? Hb Hr]; subst.
  unfold changeEmailDomain at 1.
  rewrite Split_Join; [| discriminate | now repeat constructor].
  unfold changeEmailDomain. now rewrite E.
Qed.

Lemma rewrite_twice_witness :
  changeEmailDomain "bob@new.com" "old.com" = changeEmailDomain "bob@mail.example" "old.com" /\
  changeEmailDomain "bob@new.com" "new.com" = Returns "bob@new.com".
Proof.
  apply (rewrite_twice "bob@mail.example" "new.com" "old.com" "bob@new.com");
    reflexivity.
Defined.

(** X4.  The test for an address that is already current: the rewrite to a
    domain returns the address itself exactly when the second segment of
    the address, the text between its first separator and the next one or
    the end, is that domain. *)
Theorem rewrite_fixes_iff_second_segment (email domain : string) :
  changeEmailDomain email domain = Returns email <->
  nth_error (Split email) 1 = Some domain.
Proof.
  split.
  - intros H. destruct (changeEmailDomain_inv _ _ _ H) as (a & b & rest & E & Hj).
    rewrite E. simpl. f_equal. symmetry.
    apply (Join_second_inj a domain b rest).
    rewrite <- Hj, <- E. symmetry. apply Join_Split.
  - intros H. unfold changeEmailDomain.
    destruct (Split email) as [|a [|b rest]] eqn:E; try discriminate.
    simpl in H. injection H as ->. simpl setIndex. cbv iota beta.
    now rewrite <- E, Join_Split.
Qed.

(** ** What a pass keeps, whatever fails *)

Section Frame.

Variable d : DomainChanger.
Variable flt : Faults.
Variable k : kind.
Variable I : World -> Prop.

Hypothesis I_update : forall key p,
  hasAt (Email p) = true -> hoare I (UpdateDo flt k key p) (fun _ => I) I.
Hypothesis I_insert : forall key a,
  hasAt a = true -> hoare I (AliasesInsertDo flt k key a) (fun _ => I) I.

Lemma frame_UpdateAliases (p : Principal) :
  hoare I (UpdateAliases d flt k p) (fun _ => I) I.
Proof.
  unfold UpdateAliases.
  apply hoare_bind with (R := fun _ => I).
  { apply hoare_eval; auto. }
  intros oldAddress. apply hoare_forEach. intros a _.
  unfold aliasBody. destruct (negb (String.eqb a oldAddress)); [|now apply hoare_ret].
  apply hoare_bind with (R := fun newA w => I w /\ hasAt newA = true).
  { apply hoare_eval; [|auto]. intros w n Hw Hn. split; [assumption|].
    exact (changeEmailDomain_result_hasAt _ _ _ Hn). }
  intros newA. destruct (negb (hasAlias newA (Aliases p))).
  - apply hoare_bind with (R := fun _ => I).
    + intros w (Hw & Hat). exact (I_insert (Id p) newA Hat w Hw).
    + intros _. now apply hoare_ret.
  - apply hoare_ret. now intros w (Hw & _).
Qed.

End Frame.

Lemma frame_passBody (d : DomainChanger) (flt : Faults) (k : kind)
    (I : World -> Prop) (x : Principal) :
  (forall key p, hasAt (Email p) = true ->
     hoare I (UpdateDo flt k key p) (fun _ => I) I) ->
  (forall key a, hasAt a = true ->
     hoare I (AliasesInsertDo flt k key a) (fun _ => I) I) ->
  hoare I (passBody d flt k x) (fun _ => I) I.
Proof.
  intros HU HA.
  assert (Hupd : forall e,
            hoare (fun w => I w /\ hasAt e = true)
              (UpdateDo flt k (Id x) (setEmail e x)) (fun _ => I) I).
  { intros e w (Hw & Hat). exact (HU (Id x) (setEmail e x) Hat w Hw). }
  assert (Hev : hoare I (eval (emailNewDomain d (Email x)))
                  (fun e w => I w /\ hasAt e = true) I).
  { apply hoare_eval; [|auto]. intros w n Hw Hn. split; [assumption|].
    exact (changeEmailDomain_result_hasAt _ _ _ Hn). }
  destruct k; simpl; unfold userBody, groupBody;
    (apply hoare_bind with (R := fun e w => I w /\ hasAt e = true); [exact Hev|]);
    intros e;
    (apply hoare_bind with (R := fun _ => I);
     [| intros x'; now apply frame_UpdateAliases]);
    (destruct (String.eqb e (Email x));
     [ apply hoare_ret; now intros w (Hw & _) |]);
    (apply hoare_bind with (R := fun _ => I); [apply Hupd|]);
    intros [q|]; try (now apply hoare_ret); intros w Hw; exact Hw.
Qed.

Lemma frame_UpdatePass (d : DomainChanger) (flt : Faults) (k : kind)
    (I : World -> Prop) :
  (forall key p, hasAt (Email p) = true ->
     hoare I (UpdateDo flt k key p) (fun _ => I) I) ->
  (forall key a, hasAt a = true ->
     hoare I (AliasesInsertDo flt k key a) (fun _ => I) I) ->
  hoare I (UpdatePass d flt k) (fun _ => I) I.
Proof.
  intros HU HA w Hw. destruct (failList flt k) eqn:Hl.
  - destruct (UpdatePass_list_fails d flt k w Hl) as (msg & ->). exact Hw.
  - rewrite UpdatePass_eq by assumption.
    apply (hoare_forEach I (passBody d flt k)); [|exact Hw].
    intros x _. now apply frame_passBody.
Qed.

Lemma frame_run (d : DomainChanger) (flt : Faults) (k : kind)
    (I : World -> Prop) (w : World) :
  (forall key p, hasAt (Email p) = true ->
     hoare I (UpdateDo flt k key p) (fun _ => I) I) ->
  (forall key a, hasAt a = true ->
     hoare I (AliasesInsertDo flt k key a) (fun _ => I) I) ->
  I w -> I (fst (UpdatePass d flt k w)).
Proof.
  intros HU HA Hw. pose proof (frame_UpdatePass d flt k I HU HA w Hw) as H.
  destruct (UpdatePass d flt k w) as [w' [[]| |]]; exact H.
Qed.

Lemma sameKind_refl (k : kind) : sameKind k k = true.
Proof. now destruct k. Qed.

Lemma otherKind_neq (k : kind) : k <> otherKind k.
Proof. destruct k; discriminate. Qed.

Lemma keeps_refl (q : Principal) : keeps q q.
Proof. repeat split. exists []. now rewrite app_nil_r. Qed.

Lemma keeps_setEmail (e : string) (q0 q : Principal) :
  keeps q0 q -> keeps q0 (setEmail e q).
Proof. intros H. exact H. Qed.

Lemma keeps_addAlias (a : string) (q0 q : Principal) :
  keeps q0 q -> keeps q0 (addAlias a q).
Proof.
  intros (Hi & Hn & ins & Ha). repeat split; [assumption | assumption |].
  exists (ins ++ [a]). simpl. now rewrite Ha, app_assoc.
Qed.

Lemma keeps_modifyId (key : string) (f : Principal -> Principal)
    (l0 l : list Principal) :
  (forall q0 q, keeps q0 q -> keeps q0 (f q)) ->
  Forall2 keeps l0 l -> Forall2 keeps l0 (modifyId key f l).
Proof.
  intros Hf. induction 1 as [|q0 q l0 l Hq Hl IH]; simpl; constructor; auto.
  destruct (String.eqb (Id q) key); auto.
Qed.

(** X5.  A pass touches its own collection only, whatever calls fail and
    however it ends: the customer and the other collection are as before,
    the collection has the same identifiers in the same order (no principal
    is created, deleted or moved), and every call the pass adds to the log
    is an update or an alias insert on its collection with an address that
    has a separator, never a customer update. *)
Theorem pass_touches_its_collection_only (d : DomainChanger) (flt : Faults)
    (k : kind) (w : World) :
  customer (dir (fst (UpdatePass d flt k w))) = customer (dir w) /\
  coll (otherKind k) (dir (fst (UpdatePass d flt k w))) = coll (otherKind k) (dir w) /\
  map Id (coll k (dir (fst (UpdatePass d flt k w)))) = map Id (coll k (dir w)) /\
  exists new,
    calls (fst (UpdatePass d flt k w)) = calls w ++ new /\
    forallb (passCall k) new = true.
Proof.
  set (I := fun w' : World =>
    customer (dir w') = customer (dir w) /\
    coll (otherKind k) (dir w') = coll (otherKind k) (dir w) /\
    map Id (coll k (dir w')) = map Id (coll k (dir w)) /\
    exists new, calls w' = calls w ++ new /\ forallb (passCall k) new = true).
  apply (frame_run d flt k I w).
  - intros key p Hat w0 (Hc & Ho & Hids & new & Hcs & Hall).
    destruct (UpdateDo_effect flt k key p w0) as (l' & r & -> & Hcase).
    unfold I. simpl.
    rewrite customer_withColl, coll_withColl,
      (coll_withColl_other k (otherKind k) _ _ (otherKind_neq k)).
    repeat split; [assumption | assumption | |].
    + destruct Hcase as [(-> & _)|(_ & -> & _)]; [assumption|].
      now rewrite modifyId_ids.
    + exists (new ++ [Update k key (Email p)]). rewrite Hcs, app_assoc.
      split; [reflexivity|]. rewrite forallb_app, Hall. simpl.
      now rewrite sameKind_refl, Hat.
  - intros key a Hat w0 (Hc & Ho & Hids & new & Hcs & Hall).
    destruct (AliasesInsertDo_effect flt k key a w0) as (l' & b & -> & Hcase).
    unfold I. simpl.
    rewrite customer_withColl, coll_withColl,
      (coll_withColl_other k (otherKind k) _ _ (otherKind_neq k)).
    repeat split; [assumption | assumption | |].
    + destruct Hcase as [->| ->]; [assumption|]. now rewrite modifyId_ids.
    + exists (new ++ [AliasesInsert k key a]). rewrite Hcs, app_assoc.
      split; [reflexivity|]. rewrite forallb_app, Hall. simpl.
      now rewrite sameKind_refl, Hat.
  - unfold I. repeat split. exists []. now rewrite app_nil_r.
Qed.

(** X6.  A pass never deletes an alias and never changes an identifier or a
    name, whatever calls fail and however it ends: every stored principal of
    the collection is, after the pass, the principal it was with at most
    another address and further aliases appended. *)
Theorem pass_keeps_aliases (d : DomainChanger) (flt : Faults) (k : kind)
    (w : World) :
  Forall2 keeps (coll k (dir w)) (coll k (dir (fst (UpdatePass d flt k w)))).
Proof.
  apply (frame_run d flt k
           (fun w' => Forall2 keeps (coll k (dir w)) (coll k (dir w'))) w).
  - intros key p _ w0 H.
    destruct (UpdateDo_effect flt k key p w0) as (l' & r & -> & Hcase).
    simpl. rewrite coll_withColl.
    destruct Hcase as [(-> & _)|(_ & -> & _)]; [assumption|].
    apply keeps_modifyId; [|assumption]. intros q0 q. apply keeps_setEmail.
  - intros key a _ w0 H.
    destruct (AliasesInsertDo_effect flt k key a w0) as (l' & b & -> & Hcase).
    simpl. rewrite coll_withColl.
    destruct Hcase as [->| ->]; [assumption|].
    apply keeps_modifyId; [|assumption]. intros q0 q. apply keeps_addAlias.
  - induction (coll k (dir w)); constructor; [apply keeps_refl | assumption].
Qed.

(** X7.  A pass keeps the stored addresses well formed, whatever calls fail
    and however it ends: when every stored address of the collection has a
    separator before the pass, every stored address has one after it. *)
Theorem pass_keeps_separators (d : DomainChanger) (flt : Faults) (k : kind)
    (w : World) :
  wfStore (coll k (dir w)) = true ->
  wfStore (coll k (dir (fst (UpdatePass d flt k w)))) = true.
Proof.
  apply (frame_run d flt k (fun w' => wfStore (coll k (dir w')) = true) w).
  - intros key p Hat w0 H.
    destruct (UpdateDo_effect flt k key p w0) as (l' & r & -> & Hcase).
    simpl. rewrite coll_withColl.
    destruct Hcase as [(-> & _)|(_ & -> & _)]; [assumption|].
    apply modifyId_wfStore; [|assumption].
    intros q. now apply wfPrincipal_setEmail.
  - intros key a Hat w0 H.
    destruct (AliasesInsertDo_effect flt k key a w0) as (l' & b & -> & Hcase).
    simpl. rewrite coll_withColl.
    destruct Hcase as [->| ->]; [assumption|].
    apply modifyId_wfStore; [|assumption].
    intros q. now apply wfPrincipal_addAlias.
Qed.

Lemma pass_keeps_separators_witness :
  wfStore (users (dir (fst (UpdatePass exampleChanger (failUpdateOf "4") KUser
                              (mkWorld (directoryOf [alice; bob; dave] []) [])))))
  = true.
Proof.
  apply (pass_keeps_separators exampleChanger (failUpdateOf "4") KUser
           (mkWorld (directoryOf [alice; bob; dave] []) [])).
  reflexivity.
Defined.

(** ** What a pass that returns has done *)

Lemma setEmail_same (p : Principal) : setEmail (Email p) p = p.
Proof. now destruct p. Qed.

Section Shape.

Variable d : DomainChanger.
Variable flt : Faults.
Variable k : kind.

Lemma aliasLoop_shape (p : Principal) (oldAddress : string)
    (pre post : list Principal) (l : list string) :
  forall (w w' : World) (o : outcome unit) (q : Principal),
    coll k (dir w) = pre ++ q :: post ->
    Id q = Id p ->
    NoDup (map Id (pre ++ q :: post)) ->
    forEach (aliasBody d flt k p oldAddress) l w = (w', o) ->
    exists ins, dir w' = withColl k (pre ++ addAliases ins q :: post) (dir w).
Proof.
  induction l as [|a l IH]; intros w w' o q Hc Hid Hn H.
  - simpl in H. unfold ret in H. injection H as <- _.
    exists []. now rewrite addAliases_nil, <- Hc, withColl_coll.
  - simpl in H. unfold bind in H.
    destruct (aliasBody d flt k p oldAddress a w) as [w1 o1] eqn:Hb.
    assert (Hw1 : dir w1 = dir w \/
                  exists n, dir w1 = withColl k (pre ++ addAlias n q :: post) (dir w)).
    { unfold aliasBody in Hb.
      destruct (negb (String.eqb a oldAddress));
        [|unfold ret in Hb; injection Hb as <- _; now left].
      unfold bind at 1, eval in Hb.
      destruct (emailNewDomain d a) as [n| |];
        try (injection Hb as <- _; now left).
      destruct (negb (hasAlias n (Aliases p)));
        [|unfold ret in Hb; injection Hb as <- _; now left].
      unfold bind in Hb.
      destruct (AliasesInsertDo_effect flt k (Id p) n w) as (l' & b & E & Hcase).
      rewrite E in Hb. unfold ret in Hb. injection Hb as <- _. simpl.
      destruct Hcase as [->| ->].
      - left. apply withColl_coll.
      - right. exists n. rewrite Hc, <- Hid. now rewrite modifyId_mid. }
    assert (Hrest : exists ins1,
              dir w1 = withColl k (pre ++ addAliases ins1 q :: post) (dir w) /\
              (o1 = Returns tt -> True)).
    { destruct Hw1 as [->|(n & ->)].
      - exists []. now rewrite addAliases_nil, <- Hc, withColl_coll.
      - exists [n]. split; [|auto]. unfold addAliases, addAlias. reflexivity. }
    destruct Hrest as (ins1 & Hd1 & _).
    destruct o1 as [[]| |]; try (injection H as <- _; now exists ins1).
    assert (Hc1 : coll k (dir w1) = pre ++ addAliases ins1 q :: post)
      by (rewrite Hd1; apply coll_withColl).
    assert (Hn1 : NoDup (map Id (pre ++ addAliases ins1 q :: post)))
      by (rewrite map_app in *; exact Hn).
    destruct (IH w1 w' o (addAliases ins1 q) Hc1 Hid Hn1 H) as (ins & Hd).
    exists (ins1 ++ ins). rewrite Hd, Hd1, withColl_withColl.
    unfold addAliases. simpl. now rewrite app_assoc.
Qed.

Lemma UpdateAliases_shape (pre post : list Principal) (q : Principal)
    (w w' : World) (o : outcome unit) :
  coll k (dir w) = pre ++ q :: post ->
  NoDup (map Id (pre ++ q :: post)) ->
  UpdateAliases d flt k q w = (w', o) ->
  exists ins, dir w' = withColl k (pre ++ addAliases ins q :: post) (dir w).
Proof.
  intros Hc Hn H. unfold UpdateAliases, bind at 1, eval in H.
  destruct (emailOldDomain d (Email q)) as [oldAddress| |].
  - exact (aliasLoop_shape q oldAddress pre post (Aliases q) w w' o q Hc eq_refl Hn H).
  - injection H as <- _. exists []. now rewrite addAliases_nil, <- Hc, withColl_coll.
  - injection H as <- _. exists []. now rewrite addAliases_nil, <- Hc, withColl_coll.
Qed.

End Shape.

Lemma UpdateDo_mid_any (flt : Faults) (k : kind) (p q r : Principal)
    (pre post : list Principal) (w w1 : World) :
  coll k (dir w) = pre ++ q :: post ->
  NoDup (map Id (pre ++ q :: post)) ->
  UpdateDo flt k (Id q) p w = (w1, Returns (Some r)) ->
  r = setEmail (Email p) q /\
  dir w1 = withColl k (pre ++ setEmail (Email p) q :: post) (dir w).
Proof.
  intros Hc Hn H.
  destruct (UpdateDo_effect flt k (Id q) p w) as (l' & r' & E & Hcase).
  rewrite E in H. injection H as <- ->.
  destruct Hcase as [(_ & Hr)|(_ & -> & q' & Hr & Hl)]; [discriminate|].
  injection Hr as <-.
  rewrite Hc, (modifyId_mid _ _ _ _ Hn) in Hl |- *.
  change (Id q) with (Id (setEmail (Email p) q)) in Hl.
  rewrite lookupId_mid in Hl by (rewrite map_app in *; exact Hn).
  injection Hl as <-. now split.
Qed.

Lemma passBody_shape (d : DomainChanger) (flt : Faults) (k : kind)
    (pre post : list Principal) (p : Principal) (w w' : World) :
  coll k (dir w) = pre ++ p :: post ->
  NoDup (map Id (pre ++ p :: post)) ->
  passBody d flt k p w = (w', Returns tt) ->
  exists e ins,
    emailNewDomain d (Email p) = Returns e /\
    dir w' = withColl k (pre ++ addAliases ins (setEmail e p) :: post) (dir w).
Proof.
  intros Hc Hn H.
  assert (Hb : exists e, emailNewDomain d (Email p) = Returns e /\
            exists w1, dir w1 = withColl k (pre ++ setEmail e p :: post) (dir w) /\
                       UpdateAliases d flt k (setEmail e p) w1 = (w', Returns tt)).
  { destruct k; simpl in H; unfold userBody, groupBody in H;
      apply bind_Returns in H as (e & w0 & He & H);
      unfold eval in He; injection He as <- He; exists e; (split; [exact He|]);
      apply bind_Returns in H as (x' & w1 & Hx & H);
      destruct (String.eqb e (Email p)) eqn:E.
    - apply String.eqb_eq in E. subst e. unfold ret in Hx. injection Hx as <- <-.
      exists w. rewrite setEmail_same, <- Hc, withColl_coll. now split.
    - apply bind_Returns in Hx as (r & w2 & Hu & Hx).
      destruct r as [r|]; [|discriminate]. unfold ret in Hx. injection Hx as <- <-.
      destruct (UpdateDo_mid_any _ _ _ _ _ _ _ _ _ Hc Hn Hu) as (-> & Hd).
      exists w2. now split.
    - apply String.eqb_eq in E. subst e. unfold ret in Hx. injection Hx as <- <-.
      exists w. rewrite setEmail_same, <- Hc, withColl_coll. now split.
    - apply bind_Returns in Hx as (r & w2 & Hu & Hx).
      destruct r as [r|]; [|discriminate]. unfold ret in Hx. injection Hx as <- <-.
      destruct (UpdateDo_mid_any _ _ _ _ _ _ _ _ _ Hc Hn Hu) as (_ & Hd).
      exists w2. now split. }
  destruct Hb as (e & En & w1 & Hd1 & Hu).
  assert (Hc1 : coll k (dir w1) = pre ++ setEmail e p :: post)
    by (rewrite Hd1; apply coll_withColl).
  assert (Hn1 : NoDup (map Id (pre ++ setEmail e p :: post)))
    by (rewrite map_app in *; exact Hn).
  destruct (UpdateAliases_shape d flt k pre post (setEmail e p) w1 w' _ Hc1 Hn1 Hu)
    as (ins & Hd).
  exists e, ins. split; [assumption|]. now rewrite Hd, Hd1, withColl_withColl.
Qed.

Lemma renamed_addAliases (d : DomainChanger) (p : Principal) (e : string)
    (ins : list string) :
  emailNewDomain d (Email p) = Returns e ->
  renamed d p (addAliases ins (setEmail e p)).
Proof. intros H. split; [exact H|]. repeat split. now exists ins. Qed.

Lemma passLoop_shape (d : DomainChanger) (flt : Faults) (k : kind)
    (post : list Principal) (us : list Principal) :
  forall (pre : list Principal) (w w' : World),
    coll k (dir w) = pre ++ us ++ post ->
    NoDup (map Id (pre ++ us ++ post)) ->
    forEach (passBody d flt k) us w = (w', Returns tt) ->
    exists ms, dir w' = withColl k (pre ++ ms ++ post) (dir w) /\
               Forall2 (renamed d) us ms.
Proof.
  induction us as [|u us IH]; intros pre w w' Hc Hn H.
  - simpl in H. unfold ret in H. injection H as <-.
    exists []. simpl in *. rewrite <- Hc, withColl_coll. auto.
  - apply forEach_cons_Returns in H as (w1 & H1 & H2). simpl in Hc, Hn.
    destruct (passBody_shape d flt k pre (us ++ post) u w w1 Hc Hn H1)
      as (e & ins & He & Hd).
    set (m := addAliases ins (setEmail e u)) in *.
    assert (Hc1 : coll k (dir w1) = (pre ++ [m]) ++ us ++ post).
    { rewrite Hd, coll_withColl, <- app_assoc. reflexivity. }
    assert (Hn1 : NoDup (map Id ((pre ++ [m]) ++ us ++ post))).
    { rewrite <- app_assoc. simpl. rewrite map_app in *. exact Hn. }
    destruct (IH (pre ++ [m]) w1 w' Hc1 Hn1 H2) as (ms & Hd' & Hf).
    exists (m :: ms). split.
    + rewrite Hd', Hd, withColl_withColl, <- app_assoc. reflexivity.
    + constructor; [|assumption]. now apply renamed_addAliases.
Qed.

(** X8.  What a pass that returns has done, whatever alias inserts failed:
    on a collection with distinct identifiers, every principal of the
    first page is stored under the address its rewrite to the new domain
    returns, with its identifier, its name and its aliases kept (further
    aliases appended at most), the principals after the first page are
    stored as they were, and nothing else of the directory has changed. *)
Theorem returned_pass_renamed_first_page (d : DomainChanger) (flt : Faults)
    (k : kind) (w w' : World) :
  NoDup (map Id (coll k (dir w))) ->
  UpdatePass d flt k w = (w', Returns tt) ->
  exists ms,
    Forall2 (renamed d) (firstn (pageSize k) (coll k (dir w))) ms /\
    dir w' = withColl k (ms ++ skipn (pageSize k) (coll k (dir w))) (dir w).
Proof.
  intros Hn H.
  destruct (failList flt k) eqn:Hl.
  { destruct (UpdatePass_list_fails d flt k w Hl) as (msg & E).
    rewrite E in H. discriminate. }
  rewrite UpdatePass_eq in H by assumption.
  destruct (passLoop_shape d flt k (skipn (pageSize k) (coll k (dir w)))
              (firstn (pageSize k) (coll k (dir w))) [] w w') as (ms & Hd & Hf).
  - simpl. now rewrite firstn_skipn.
  - simpl. now rewrite firstn_skipn.
  - exact H.
  - exists ms. now split.
Qed.

Lemma returned_pass_renamed_first_page_witness :
  exists ms,
    Forall2 (renamed exampleChanger) [alice; bob; dave] ms /\
    dir (fst (UpdatePass exampleChanger failInserts KUser
                (mkWorld (directoryOf [alice; bob; dave] [team]) [])))
    = withColl KUser (ms ++ []) (directoryOf [alice; bob; dave] [team]).
Proof.
  apply (returned_pass_renamed_first_page exampleChanger failInserts KUser
           (mkWorld (directoryOf [alice; bob; dave] [team]) [])).
  - nodup_ids.
  - vm_compute. reflexivity.
Defined.

(** ** The calls of the alias pass *)

Section AliasCalls.

Variable d : DomainChanger.
Variable k : kind.
Variable p : Principal.
Variable oldAddress : string.

Lemma aliasBody_eq (flt : Faults) (a : string) (w : World) :
  aliasBody d flt k p oldAddress a w =
    if String.eqb a oldAddress then (w, Returns tt)
    else match emailNewDomain d a with
         | Returns newA =>
             if hasAlias newA (Aliases p) then (w, Returns tt)
             else (fst (AliasesInsertDo flt k (Id p) newA w), Returns tt)
         | Exits msg => (w, Exits msg)
         | Panics x => (w, Panics x)
         end.
Proof.
  unfold aliasBody. destruct (String.eqb a oldAddress); [reflexivity|]. simpl.
  unfold bind at 1, eval.
  destruct (emailNewDomain d a) as [n| |]; [|reflexivity|reflexivity].
  destruct (hasAlias n (Aliases p)); [reflexivity|]. simpl. unfold bind.
  destruct (AliasesInsertDo_effect flt k (Id p) n w) as (l' & b & -> & _).
  reflexivity.
Qed.

Lemma AliasesInsertDo_calls (flt : Faults) (key alias : string) (w : World) :
  calls (fst (AliasesInsertDo flt k key alias w))
    = calls w ++ [AliasesInsert k key alias].
Proof.
  now destruct (AliasesInsertDo_effect flt k key alias w) as (l' & b & -> & _).
Qed.

Lemma aliasBody_calls (flt : Faults) (a : string) (w : World) :
  calls (fst (aliasBody d flt k p oldAddress a w)) = calls w \/
  exists newA,
    calls (fst (aliasBody d flt k p oldAddress a w))
      = calls w ++ [AliasesInsert k (Id p) newA] /\
    snd (aliasBody d flt k p oldAddress a w) = Returns tt /\
    a <> oldAddress /\
    emailNewDomain d a = Returns newA /\
    hasAlias newA (Aliases p) = false.
Proof.
  rewrite aliasBody_eq.
  destruct (String.eqb a oldAddress) eqn:E; [now left|].
  apply String.eqb_neq in E.
  destruct (emailNewDomain d a) as [n| |] eqn:En; [|now left|now left].
  destruct (hasAlias n (Aliases p)) eqn:Eh; [now left|].
  right. exists n. simpl. rewrite AliasesInsertDo_calls. auto.
Qed.

Lemma aliasLoop_calls (flt : Faults) (l : list string) :
  forall w : World,
    incl l (Aliases p) ->
    exists new,
      calls (fst (forEach (aliasBody d flt k p oldAddress) l w)) = calls w ++ new /\
      Forall (mirrorCall d k p oldAddress) new /\
      length new <= length l.
Proof.
  induction l as [|a l IH]; intros w Hincl.
  - exists []. simpl. rewrite app_nil_r. auto.
  - simpl. unfold bind.
    pose proof (aliasBody_calls flt a w) as Hcalls.
    destruct (aliasBody d flt k p oldAddress a w) as [w1 o1]. simpl in Hcalls.
    assert (Hin : In a (Aliases p)) by (apply Hincl; now left).
    assert (Hincl' : incl l (Aliases p)) by (intros x Hx; apply Hincl; now right).
    destruct Hcalls as [Hsame|(n & Hc & -> & Hne & Hn & Hh)].
    + destruct o1 as [[]| |].
      * destruct (IH w1 Hincl') as (new & Hnew & Hf & Hl).
        exists new. rewrite Hnew, Hsame. split; [reflexivity|].
        split; [assumption|]. simpl. lia.
      * exists []. simpl. rewrite app_nil_r. split; [assumption|].
        split; [constructor | lia].
      * exists []. simpl. rewrite app_nil_r. split; [assumption|].
        split; [constructor | lia].
    + destruct (IH w1 Hincl') as (new & Hnew & Hf & Hl).
      exists (AliasesInsert k (Id p) n :: new). rewrite Hnew, Hc, <- app_assoc.
      split; [reflexivity|]. split; [|simpl; lia].
      constructor; [|assumption]. now exists a, n.
Qed.

Lemma aliasLoop_independent (flt1 flt2 : Faults) (l : list string) :
  forall w1 w2 : World,
    calls w1 = calls w2 ->
    snd (forEach (aliasBody d flt1 k p oldAddress) l w1)
      = snd (forEach (aliasBody d flt2 k p oldAddress) l w2) /\
    calls (fst (forEach (aliasBody d flt1 k p oldAddress) l w1))
      = calls (fst (forEach (aliasBody d flt2 k p oldAddress) l w2)).
Proof.
  induction l as [|a l IH]; intros w1 w2 Hc; [now split|].
  simpl. unfold bind.
  assert (Hb : snd (aliasBody d flt1 k p oldAddress a w1)
               = snd (aliasBody d flt2 k p oldAddress a w2) /\
               calls (fst (aliasBody d flt1 k p oldAddress a w1))
               = calls (fst (aliasBody d flt2 k p oldAddress a w2))).
  { rewrite !aliasBody_eq. destruct (String.eqb a oldAddress); [now split|].
    destruct (emailNewDomain d a) as [n| |]; [|now split|now split].
    destruct (hasAlias n (Aliases p)); [now split|].
    simpl. rewrite !AliasesInsertDo_calls. now rewrite Hc. }
  destruct (aliasBody d flt1 k p oldAddress a w1) as [w1' o1].
  destruct (aliasBody d flt2 k p oldAddress a w2) as [w2' o2].
  simpl in Hb. destruct Hb as (<- & Hc').
  destruct o1 as [[]| |]; [now apply IH | now split | now split].
Qed.

End AliasCalls.

(** X9.  The calls of the alias pass of a principal whose old address is
    [oldAddress], whatever fails and however the pass ends: every call it
    adds to the log is the insert, for that principal, of the new-domain
    copy of a listed alias other than the old address, the copy not being
    among the listed aliases; it adds at most one call for each listed
    alias, and never an update. *)
Theorem alias_pass_calls_are_mirrors (d : DomainChanger) (flt : Faults)
    (k : kind) (p : Principal) (oldAddress : string) (w : World) :
  emailOldDomain d (Email p) = Returns oldAddress ->
  exists new,
    calls (fst (UpdateAliases d flt k p w)) = calls w ++ new /\
    Forall (mirrorCall d k p oldAddress) new /\
    length new <= length (Aliases p).
Proof.
  intros Ho. unfold UpdateAliases, bind at 1, eval. rewrite Ho.
  apply aliasLoop_calls. apply incl_refl.
Qed.

Lemma alias_pass_calls_are_mirrors_witness :
  let dave' := mkPrincipal "4" "Dave" "dave@new.com"
                 ["sales@old.com"; "sales@shop.example"] in
  exists new,
    calls (fst (UpdateAliases exampleChanger noFaults KUser dave'
                  (mkWorld (directoryOf [dave'] []) [])))
      = [] ++ new /\
    Forall (mirrorCall exampleChanger KUser dave' "dave@old.com") new /\
    length new <= 2 /\
    new = [AliasesInsert KUser "4" "sales@new.com";
           AliasesInsert KUser "4" "sales@new.com"].
Proof.
  cbv zeta.
  destruct (alias_pass_calls_are_mirrors exampleChanger noFaults KUser
              (mkPrincipal "4" "Dave" "dave@new.com"
                 ["sales@old.com"; "sales@shop.example"])
              "dave@old.com"
              (mkWorld (directoryOf [mkPrincipal "4" "Dave" "dave@new.com"
                                       ["sales@old.com"; "sales@shop.example"]] []) []))
    as (new & Hc & Hf & Hl).
  - reflexivity.
  - exists new. split; [exact Hc|]. split; [exact Hf|]. split; [exact Hl|].
    vm_compute in Hc. symmetry. exact Hc.
Defined.

(** X10.  The alias pass of a principal issues the same calls and ends the
    same way whatever the directory holds and whichever calls fail: started
    with the same log, two alias passes of the same listed principal end
    with the same log and the same outcome. *)
Theorem alias_pass_ignores_failures (d : DomainChanger) (k : kind)
    (p : Principal) (flt1 flt2 : Faults) (dir1 dir2 : Directory)
    (cs : list Call) :
  snd (UpdateAliases d flt1 k p (mkWorld dir1 cs))
    = snd (UpdateAliases d flt2 k p (mkWorld dir2 cs)) /\
  calls (fst (UpdateAliases d flt1 k p (mkWorld dir1 cs)))
    = calls (fst (UpdateAliases d flt2 k p (mkWorld dir2 cs))).
Proof.
  unfold UpdateAliases, bind, eval.
  destruct (emailOldDomain d (Email p)) as [oldAddress| |]; [|now split|now split].
  now apply aliasLoop_independent.
Qed.

(** ** The confirmation and the customer update *)

(** X11.  The answers the gates of [ChangePrimaryDomain] accept, as
    strings.  At the update gate the customer update is issued for the
    answers [y] and [Y] and every other answer ([yes] is one) exits with
    [Abort!] without a call; at the already-current gate the answers [n] and
    [N] exit with [Done.] and every other answer returns without a call. *)
Theorem gate_answers (d : DomainChanger) (flt : Faults) (code : string)
    (w : World) :
  (checkNewDomain d = true ->
     ((code = "y" \/ code = "Y") ->
        calls (fst (ChangePrimaryDomain d flt (Some code) w))
          = calls w ++ [CustomersUpdate (CustomerId (cust d)) (newDomain d)]) /\
     (~ (code = "y" \/ code = "Y") ->
        ChangePrimaryDomain d flt (Some code) w = (w, Exits "Abort!"))) /\
  (checkNewDomain d = false ->
     ((code = "n" \/ code = "N") ->
        ChangePrimaryDomain d flt (Some code) w = (w, Exits "Done.")) /\
     (~ (code = "n" \/ code = "N") ->
        ChangePrimaryDomain d flt (Some code) w = (w, Returns tt))).
Proof.
  split; intros Hc; unfold ChangePrimaryDomain; rewrite Hc; simpl; split; intros H.
  - apply ToLower_y in H. rewrite H. simpl. unfold bind, CustomersUpdateDo.
    now destruct (failCustomersUpdate flt).
  - rewrite <- ToLower_y in H. apply String.eqb_neq in H. now rewrite H.
  - apply ToLower_n in H. now rewrite H.
  - rewrite <- ToLower_n in H. apply String.eqb_neq in H. now rewrite H.
Qed.

Lemma gate_answers_witness :
  ChangePrimaryDomain exampleChanger noFaults (Some "yes")
    (mkWorld (directoryOf [bob] []) [])
    = (mkWorld (directoryOf [bob] []) [], Exits "Abort!") /\
  calls (fst (ChangePrimaryDomain exampleChanger noFaults (Some "Y")
                (mkWorld (directoryOf [bob] []) [])))
    = [] ++ [CustomersUpdate "C01" "new.com"].
Proof.
  split.
  - apply (proj2 (proj1 (gate_answers exampleChanger noFaults "yes"
                           (mkWorld (directoryOf [bob] []) [])) eq_refl)).
    intros [H|H]; discriminate H.
  - apply (proj1 (proj1 (gate_answers exampleChanger noFaults "Y"
                           (mkWorld (directoryOf [bob] []) [])) eq_refl)).
    now right.
Defined.

(** X12.  What [ChangePrimaryDomain] can do, for every answer, read or not,
    and whatever fails: the users, the groups and the customer's identifier
    are as before; the log is as before or has one more call, the customer
    update to the new domain under the identifier the changer holds; an
    answer that could not be read exits without a call; a failing customer
    update leaves the directory as it is; and when the call returns at the
    update gate, the stored customer domain is the new domain. *)
Theorem ChangePrimaryDomain_effect (d : DomainChanger) (flt : Faults)
    (code : option string) (w : World) :
  users (dir (fst (ChangePrimaryDomain d flt code w))) = users (dir w) /\
  groups (dir (fst (ChangePrimaryDomain d flt code w))) = groups (dir w) /\
  CustomerId (customer (dir (fst (ChangePrimaryDomain d flt code w))))
    = CustomerId (customer (dir w)) /\
  (calls (fst (ChangePrimaryDomain d flt code w)) = calls w \/
   calls (fst (ChangePrimaryDomain d flt code w))
     = calls w ++ [CustomersUpdate (CustomerId (cust d)) (newDomain d)]) /\
  (code = None ->
   ChangePrimaryDomain d flt code w = (w, Exits "Unable to read response")) /\
  (failCustomersUpdate flt = true ->
   dir (fst (ChangePrimaryDomain d flt code w)) = dir w) /\
  (checkNewDomain d = true ->
   snd (ChangePrimaryDomain d flt code w) = Returns tt ->
   CustomerDomain (customer (dir (fst (ChangePrimaryDomain d flt code w))))
     = newDomain d).
Proof.
  unfold ChangePrimaryDomain.
  destruct (checkNewDomain d); simpl;
    destruct code as [c|]; simpl;
    try (repeat split; auto; discriminate).
  - destruct (String.eqb (ToLower c) "y"); simpl;
      [|repeat split; auto; discriminate].
    unfold bind, CustomersUpdateDo.
    destruct (failCustomersUpdate flt); simpl;
      repeat split; auto; discriminate.
  - destruct (String.eqb (ToLower c) "n"); simpl;
      repeat split; auto; discriminate.
Qed.

Lemma ChangePrimaryDomain_effect_witness :
  ChangePrimaryDomain exampleChanger noFaults None
    (mkWorld (directoryOf [bob] []) [])
    = (mkWorld (directoryOf [bob] []) [], Exits "Unable to read response") /\
  CustomerDomain (customer (dir (fst (ChangePrimaryDomain exampleChanger noFaults
                                        (Some "y")
                                        (mkWorld (directoryOf [bob] []) [])))))
    = "new.com".
Proof.
  split.
  - apply (proj1 (proj2 (proj2 (proj2 (proj2
             (ChangePrimaryDomain_effect exampleChanger noFaults None
                (mkWorld (directoryOf [bob] []) []))))))).
    reflexivity.
  - apply (proj2 (proj2 (proj2 (proj2 (proj2 (proj2
             (ChangePrimaryDomain_effect exampleChanger noFaults (Some "y")
                (mkWorld (directoryOf [bob] []) [])))))))); reflexivity.
Defined.

(** X13.  [main] issues no call without the confirmation: when a run of
    [main] has added a call to the log, both domains were given and an
    answer was read that is [y] in lower case while the customer was not on
    the new domain, or that is not [n] in lower case while the customer was
    on the new domain. *)
Theorem main_calls_need_confirmation (flt : Faults) (oldD newD : string)
    (code : option string) (w : World) :
  calls (fst (main flt oldD newD code w)) <> calls w ->
  oldD <> "" /\ newD <> "" /\
  exists c, code = Some c /\
    ((CustomerDomain (customer (dir w)) <> newD /\ ToLower c = "y") \/
     (CustomerDomain (customer (dir w)) = newD /\ ToLower c <> "n")).
Proof.
  unfold main.
  destruct (String.eqb oldD "") eqn:Eo; simpl;
    [intros H; exfalso; apply H; reflexivity|].
  destruct (String.eqb newD "") eqn:En; simpl;
    [intros H; exfalso; apply H; reflexivity|].
  apply String.eqb_neq in Eo, En.
  unfold bind at 1, NewDomainChanger, bind at 1, CustomersGet.
  destruct (failCustomersGet flt); simpl;
    [intros H; exfalso; apply H; reflexivity|].
  unfold bind at 1, ChangePrimaryDomain, checkNewDomain. simpl.
  destruct (String.eqb (CustomerDomain (customer (dir w))) newD) eqn:Ed; simpl;
    (destruct code as [c|]; simpl; [|intros H; exfalso; apply H; reflexivity]).
  - apply String.eqb_eq in Ed.
    destruct (String.eqb (ToLower c) "n") eqn:Ec; simpl;
      [intros H; exfalso; apply H; reflexivity|].
    apply String.eqb_neq in Ec. intros _.
    split; [assumption|]. split; [assumption|]. exists c. auto.
  - apply String.eqb_neq in Ed.
    destruct (String.eqb (ToLower c) "y") eqn:Ec; simpl;
      [|intros H; exfalso; apply H; reflexivity].
    apply String.eqb_eq in Ec. intros _.
    split; [assumption|]. split; [assumption|]. exists c. auto.
Qed.

Lemma main_calls_need_confirmation_witness :
  "old.com" <> "" /\ "new.com" <> "" /\
  exists c, Some "Y" = Some c /\
    ((CustomerDomain (customer (directoryOf [bob] [])) <> "new.com" /\ ToLower c = "y") \/
     (CustomerDomain (customer (directoryOf [bob] [])) = "new.com" /\ ToLower c <> "n")).
Proof.
  apply (main_calls_need_confirmation noFaults "old.com" "new.com" (Some "Y")
           (mkWorld (directoryOf [bob] []) [])).
  vm_compute. discriminate.
Defined.

(** ** The older entry point *)

Lemma modifyId_setEmail_aliases (key e : string) (l : list Principal) :
  map Aliases (modifyId key (setEmail e) l) = map Aliases l.
Proof.
  unfold modifyId. rewrite map_map. apply map_ext.
  intros q. now destruct (String.eqb (Id q) key).
Qed.

Lemma legacyUserBody_step (flt : Faults) (newD : string) (u : Principal)
    (w : World) :
  hasAt (Email u) = true ->
  In (Id u) (map Id (users (dir w))) ->
  failUpdate flt KUser (Id u) = false ->
  exists e,
    changeEmailDomain (Email u) newD = Returns e /\
    legacyUserBody flt newD u w =
      (mkWorld (withColl KUser (modifyId (Id u) (setEmail e) (users (dir w))) (dir w))
               (calls w ++ [Update KUser (Id u) e]),
       Returns tt).
Proof.
  intros Hat Hin Ef.
  destruct (changeEmailDomain_hasAt (Email u) newD Hat) as (e & He & _).
  exists e. split; [exact He|].
  unfold changeEmailDomain in He. unfold legacyUserBody.
  destruct (setIndex (Split (Email u)) 1 newD) as [parts|]; [|discriminate].
  injection He as <-. unfold bind.
  destruct (UpdateDo_succeeds flt KUser (Id u) (setEmail (Join parts) u) w Ef Hin)
    as (q & E & _).
  now rewrite E.
Qed.

Lemma legacyLoop (flt : Faults) (newD : string) (l : list Principal) :
  (forall key, failUpdate flt KUser key = false) ->
  forall w : World,
    (forall u, In u l ->
       hasAt (Email u) = true /\ In (Id u) (map Id (users (dir w)))) ->
    exists w' new,
      forEach (legacyUserBody flt newD) l w = (w', Returns tt) /\
      calls w' = calls w ++ new /\
      Forall2 (legacyCall newD) l new /\
      map Id (users (dir w')) = map Id (users (dir w)) /\
      map Aliases (users (dir w')) = map Aliases (users (dir w)) /\
      groups (dir w') = groups (dir w) /\
      customer (dir w') = customer (dir w).
Proof.
  intros Ef. induction l as [|u l IH]; intros w Hl.
  - exists w, []. simpl. rewrite app_nil_r. repeat split. constructor.
  - destruct (Hl u (or_introl eq_refl)) as (Hat & Hin).
    destruct (legacyUserBody_step flt newD u w Hat Hin (Ef (Id u))) as (e & He & Hb).
    set (w1 := mkWorld (withColl KUser (modifyId (Id u) (setEmail e) (users (dir w)))
                          (dir w))
                       (calls w ++ [Update KUser (Id u) e])) in *.
    assert (Hids : map Id (users (dir w1)) = map Id (users (dir w))).
    { simpl. now rewrite modifyId_ids. }
    destruct (IH w1) as (w' & new & Hrun & Hc & Hf & Hi & Ha & Hg & Hcu).
    { intros x Hx. destruct (Hl x (or_intror Hx)) as (Hx1 & Hx2).
      split; [assumption|]. now rewrite Hids. }
    exists w', (Update KUser (Id u) e :: new).
    simpl forEach. rewrite (bind_step _ _ _ _ _ Hb).
    split; [exact Hrun|]. split.
    { rewrite Hc. simpl. now rewrite <- app_assoc. }
    split.
    { constructor; [now exists e | assumption]. }
    split; [now rewrite Hi|]. split.
    { rewrite Ha. simpl. apply modifyId_setEmail_aliases. }
    split; [now rewrite Hg | now rewrite Hcu].
Qed.

Lemma legacy_listing (flt : Faults) (newD : string) (w : World) :
  failList flt KUser = false ->
  (ru <- ListDo flt KUser "my_customer" 50 ;;
   match ru with
   | None => fatal "Unable to retrieve users in domain."
   | Some ru =>
       if Nat.eqb (length (Items ru)) 0 then ret tt
       else forEach (legacyUserBody flt newD) (Items ru)
   end) w
  = forEach (legacyUserBody flt newD) (firstn 50 (coll KUser (dir w))) w.
Proof.
  intros Hf. unfold bind, ListDo. rewrite Hf. cbv beta iota. unfold Items.
  destruct (firstn 50 (coll KUser (dir w))); reflexivity.
Qed.

(** X14.  The older entry point, when the answer is [y] in lower case, the
    customer read, the customer update, the listing and the user updates do
    not fail and every stored user address has a separator: it returns, and
    after the customer update it has issued one update call for each user
    of the first page of 50, in listing order, to the address rewritten to
    the new domain, also for a user whose address is already on it; the
    users keep their identifiers and aliases (no alias is inserted) and the
    groups are as they were. *)
Theorem legacy_main_updates_every_listed_user (flt : Faults) (newD : string)
    (rest : list string) (code : string) (w : World) :
  failCustomersGet flt = false ->
  failCustomersUpdate flt = false ->
  failList flt KUser = false ->
  (forall key, failUpdate flt KUser key = false) ->
  ToLower code = "y" ->
  wfStore (users (dir w)) = true ->
  exists w' new,
    legacyMain flt (newD :: rest) (Some code) w = (w', Returns tt) /\
    calls w' = calls w ++ CustomersUpdate (CustomerId (customer (dir w))) newD :: new /\
    Forall2 (legacyCall newD) (firstn 50 (users (dir w))) new /\
    map Id (users (dir w')) = map Id (users (dir w)) /\
    map Aliases (users (dir w')) = map Aliases (users (dir w)) /\
    groups (dir w') = groups (dir w).
Proof.
  intros Hg Hcu Hl Hu Hy Hwf.
  set (w1 := mkWorld
               (mkDirectory (mkCustomer (CustomerId (customer (dir w))) newD)
                  (users (dir w)) (groups (dir w)))
               (calls w ++ [CustomersUpdate (CustomerId (customer (dir w))) newD])).
  assert (E1 : CustomersGet flt "my_customer" w
               = (w, Returns (Some (customer (dir w)))))
    by (unfold CustomersGet; now rewrite Hg).
  assert (E2 : CustomersUpdateDo flt (CustomerId (customer (dir w)))
                 (mkCustomer "" newD) w
               = (w1, Returns (Some (mkCustomer (CustomerId (customer (dir w))) newD))))
    by (unfold CustomersUpdateDo; now rewrite Hcu).
  destruct (legacyLoop flt newD (firstn 50 (coll KUser (dir w1))) Hu w1)
    as (w' & new & Hrun & Hc & Hf & Hi & Ha & Hgr & _).
  { intros u Hin. apply In_firstn in Hin. split; [|now apply in_map].
    unfold wfStore in Hwf. rewrite forallb_forall in Hwf.
    specialize (Hwf u Hin). now apply andb_true_iff in Hwf as (-> & _). }
  exists w', new.
  split.
  { unfold legacyMain. rewrite (bind_step _ _ _ _ _ E1). cbv beta iota.
    rewrite Hy. change (negb (String.eqb "y" "y")) with false. cbv iota.
    rewrite (bind_step _ _ _ _ _ E2). cbv beta iota.
    rewrite legacy_listing by assumption. exact Hrun. }
  split; [rewrite Hc; simpl; now rewrite <- app_assoc|].
  split; [exact Hf|]. split; [exact Hi|]. split; [exact Ha | exact Hgr].
Qed.

Lemma legacy_main_updates_every_listed_user_witness :
  exists w' new,
    legacyMain noFaults ["new.com"] (Some "Y")
      (mkWorld (directoryOf [alice; carol] [team]) []) = (w', Returns tt) /\
    calls w' = [] ++ CustomersUpdate "C01" "new.com" :: new /\
    Forall2 (legacyCall "new.com") [alice; carol] new /\
    map Id (users (dir w')) = ["1"; "3"] /\
    map Aliases (users (dir w')) = [["al@old.com"]; []] /\
    groups (dir w') = [team].
Proof.
  apply (legacy_main_updates_every_listed_user noFaults "new.com" [] "Y"
           (mkWorld (directoryOf [alice; carol] [team]) []));
    reflexivity.
Defined.

(** ** The principals a pass issues calls for *)

Lemma UpdateAliases_calls_keyed (d : DomainChanger) (flt : Faults) (k : kind)
    (p : Principal) (w : World) :
  exists new,
    calls (fst (UpdateAliases d flt k p w)) = calls w ++ new /\
    Forall (fun c => exists a, c = AliasesInsert k (Id p) a) new.
Proof.
  unfold UpdateAliases, bind at 1, eval.
  destruct (emailOldDomain d (Email p)) as [oldAddress| |].
  - destruct (aliasLoop_calls d k p oldAddress flt (Aliases p) w (incl_refl _))
      as (new & Hc & Hf & _).
    exists new. split; [exact Hc|].
    apply Forall_impl with (2 := Hf). intros c (a & n & -> & _). now exists n.
  - exists []. simpl. now rewrite app_nil_r.
  - exists []. simpl. now rewrite app_nil_r.
Qed.

Lemma passBody_calls (d : DomainChanger) (flt : Faults) (k : kind)
    (x : Principal) (w : World) :
  exists new,
    calls (fst (passBody d flt k x w)) = calls w ++ new /\
    Forall (pageCall d k x) new.
Proof.
  assert (Hupd : forall kk e,
            String.eqb e (Email x) = false ->
            forall r w1, UpdateDo flt kk (Id x) (setEmail e x) w = (w1, Returns r) ->
            calls w1 = calls w ++ [Update kk (Id x) e] /\
            (forall q, r = Some q -> Id q = Id x)).
  { intros kk e Hne r w1 Hu.
    destruct (UpdateDo_effect flt kk (Id x) (setEmail e x) w) as (l' & r' & E & Hcase).
    rewrite E in Hu. injection Hu as <- <-. split; [reflexivity|].
    intros q ->. destruct Hcase as [(_ & Hr)|(_ & _ & q' & Hr & Hl)]; [discriminate|].
    injection Hr as ->. now apply lookupId_Some in Hl. }
  assert (Hreturns : forall kk p,
            exists w1 r, UpdateDo flt kk (Id x) p w = (w1, Returns r)).
  { intros kk p.
    destruct (UpdateDo_effect flt kk (Id x) p w) as (l' & r & E & _).
    now exists (mkWorld (withColl kk l' (dir w))
                  (calls w ++ [Update kk (Id x) (Email p)])), r. }
  destruct k; simpl; unfold userBody, groupBody, bind at 1, eval;
    (destruct (emailNewDomain d (Email x)) as [e| |] eqn:He;
     [| exists []; simpl; now rewrite app_nil_r
      | exists []; simpl; now rewrite app_nil_r ]);
    unfold bind at 1;
    destruct (String.eqb e (Email x)) eqn:E.
  - unfold ret. unfold UpdateUserAliases.
    destruct (UpdateAliases_calls_keyed d flt KUser x w) as (new & Hc & Hf).
    exists new. split; [exact Hc|].
    apply Forall_impl with (2 := Hf). intros c Hcall. now right.
  - unfold bind at 1.
    destruct (Hreturns KUser (setEmail e x)) as (w1 & r & Hu).
    rewrite Hu. destruct (Hupd KUser e E r w1 Hu) as (Hc1 & Hid).
    apply String.eqb_neq in E.
    destruct r as [q|].
    + unfold ret, UpdateUserAliases.
      destruct (UpdateAliases_calls_keyed d flt KUser q w1) as (new & Hc & Hf).
      exists (Update KUser (Id x) e :: new). rewrite Hc, Hc1, <- app_assoc.
      split; [reflexivity|]. constructor.
      * left. now exists e.
      * apply Forall_impl with (2 := Hf). intros c (a & ->).
        right. exists a. now rewrite (Hid q eq_refl).
    + simpl. exists [Update KUser (Id x) e]. split; [exact Hc1|].
      constructor; [|constructor]. left. now exists e.
  - unfold ret. unfold UpdateGroupAliases.
    destruct (UpdateAliases_calls_keyed d flt KGroup x w) as (new & Hc & Hf).
    exists new. split; [exact Hc|].
    apply Forall_impl with (2 := Hf). intros c Hcall. now right.
  - unfold bind at 1.
    destruct (Hreturns KGroup (setEmail e x)) as (w1 & r & Hu).
    rewrite Hu. destruct (Hupd KGroup e E r w1 Hu) as (Hc1 & Hid).
    apply String.eqb_neq in E.
    destruct r as [q|].
    + unfold ret, UpdateGroupAliases.
      destruct (UpdateAliases_calls_keyed d flt KGroup (setEmail e x) w1)
        as (new & Hc & Hf).
      exists (Update KGroup (Id x) e :: new). rewrite Hc, Hc1, <- app_assoc.
      split; [reflexivity|]. constructor.
      * left. now exists e.
      * apply Forall_impl with (2 := Hf). intros c (a & ->). right. now exists a.
    + simpl. exists [Update KGroup (Id x) e]. split; [exact Hc1|].
      constructor; [|constructor]. left. now exists e.
Qed.

Lemma passLoop_calls (d : DomainChanger) (flt : Faults) (k : kind)
    (page : list Principal) (l : list Principal) :
  incl l page ->
  forall w : World,
    exists new,
      calls (fst (forEach (passBody d flt k) l w)) = calls w ++ new /\
      Forall (fun c => exists x, In x page /\ pageCall d k x c) new.
Proof.
  induction l as [|x l IH]; intros Hincl w.
  - exists []. simpl. now rewrite app_nil_r.
  - simpl. unfold bind.
    destruct (passBody_calls d flt k x w) as (new1 & Hc1 & Hf1).
    destruct (passBody d flt k x w) as [w1 o1]. simpl in Hc1.
    assert (Hf1' : Forall (fun c => exists x, In x page /\ pageCall d k x c) new1).
    { apply Forall_impl with (2 := Hf1). intros c Hc. exists x.
      split; [apply Hincl; now left | exact Hc]. }
    destruct o1 as [[]| |]; try (exists new1; now split).
    destruct (IH (fun y Hy => Hincl y (or_intror Hy)) w1) as (new2 & Hc2 & Hf2).
    exists (new1 ++ new2). rewrite Hc2, Hc1, <- app_assoc.
    split; [reflexivity|]. apply Forall_app. now split.
Qed.

(** X15.  The calls of a pass concern the first page only, whatever fails
    and however the pass ends: every call the pass adds to the log is, for
    some principal of the first page of the listing, either the update of
    that principal to the address its rewrite returns, that address being
    other than the listed one, or an alias insert for that principal. *)
Theorem pass_calls_are_for_first_page (d : DomainChanger) (flt : Faults)
    (k : kind) (w : World) :
  exists new,
    calls (fst (UpdatePass d flt k w)) = calls w ++ new /\
    Forall (fun c => exists x,
              In x (firstn (pageSize k) (coll k (dir w))) /\ pageCall d k x c)
           new.
Proof.
  destruct (failList flt k) eqn:Hl.
  - destruct (UpdatePass_list_fails d flt k w Hl) as (msg & ->).
    exists []. simpl. now rewrite app_nil_r.
  - rewrite UpdatePass_eq by assumption.
    apply passLoop_calls. apply incl_refl.
Qed.
